(** * atomchain.mlpot: a shallow embedding of the orchestration layer

    The module [atomchain/mlpot.py] is glue code over ASE, matgl, m3gnet,
    chgnet, deepmd, pymatgen, torch and phonopy.  Its own logic is string
    dispatch, a fixed sequence of library calls on a private copy of the
    caller's configuration, and a dictionary merge.

    The embedding keeps that shape:
    - the libraries are an interface ([Libs]): opaque object types and
      fallible, stateful operations over an abstract library state;
    - Python objects that are mutated in place (ase.Atoms) live in a store
      addressed by references, so aliasing is visible;
    - every call into a library is logged in a trace, so that ordering
      statements ("before any model load", "before the final pass") can be
      stated and proved;
    - the files of the model are the ones this module writes itself, through
      the trajectory writer it opens; what a library writes on its own
      account (model caches, the output of the phonon routine, the figure)
      is part of the library, not of the model's file map;
    - exceptions are a result type; failures of a library are propagated
      unchanged, as in the source, which has no try/except. *)

From Stdlib Require Import ZArith String Ascii List Floats.
From stdpp Require Import gmap strings list.

Set Warnings "-inexact-float,-register-all".
Local Open Scope string_scope.
Local Open Scope list_scope.
Local Open Scope Z_scope.

(** ** Python data *)

(** A Python number: the defaults of the source mix [int] (cell_factor=1000)
    and [float] (fmax=0.001) literals. *)
Inductive num : Type :=
| Int (z : Z)
| Float (f : float).

(** [x * 10] for a Python number: exact on [int], IEEE binary64 on [float]
    (the int operand 10 is converted to 10.0, which is exact). *)
Definition mul10 (x : num) : num :=
  match x with
  | Int z => Int (z * 10)
  | Float f => Float (f * 10)%float
  end.

(** Values that can sit in a keyword dictionary. *)
Inductive pyval : Type :=
| PyNone
| PyBool (b : bool)
| PyInt (z : Z)
| PyFloat (f : float)
| PyStr (s : string)
| PyList (l : list pyval)
| PyMatI (rows : list (list Z))
| PyMatF (rows : list (list float))
| PyObj (id : nat).

(** [np.diag([2, 2, 2])] and [np.eye(3)]. *)
Definition np_diag (d : list Z) : list (list Z) :=
  imap (fun i x => imap (fun j _ => if Nat.eqb i j then x else 0) d) d.

Definition np_eye (n : nat) : list (list float) :=
  imap (fun i _ => imap (fun j _ => if Nat.eqb i j then 1%float else 0%float)
                        (replicate n tt))
       (replicate n tt).

(** [str.lower()] on the ASCII range.  The four backend tags are ASCII and
    contain no letter that a non-ASCII code point lowers to, so comparing the
    lowered string against them is decided by the ASCII letters alone. *)
Definition lower_ascii (c : ascii) : ascii :=
  let n := nat_of_ascii c in
  if (Nat.leb 65 n && Nat.leb n 90)%bool then ascii_of_nat (n + 32) else c.

Fixpoint lower (s : string) : string :=
  match s with
  | EmptyString => EmptyString
  | String c r => String (lower_ascii c) (lower r)
  end.

(** ** The libraries behind the module *)

(** What a library call gives back. *)
Inductive reply (E A : Type) : Type :=
| Returns (a : A)
| Throws (e : E).
Arguments Returns {E A} a.
Arguments Throws {E A} e.

(** The collaborators.  [W] is whatever state the libraries keep (model
    registry, caches, random generators, optimizer internals). *)
Class Libs : Type := {
  W : Type;
  lib_exn : Type;
  (* opaque objects *)
  Pos : Type;
  CellT : Type;
  Species : Type;
  Constr : Type;
  Calc : Type;
  MatglModel : Type;
  M3Net : Type;
  M3Pot : Type;
  Struct : Type;
  Tensor : Type;
  (* an import statement executed inside a function body *)
  w_import : string -> W -> reply lib_exn unit * W;
  (* matgl *)
  w_matgl_load_model : string -> W -> reply lib_exn MatglModel * W;
  w_matgl_M3GCalc : MatglModel -> float -> W -> reply lib_exn Calc * W;
  w_predict_structure :
    MatglModel -> Struct -> list Z -> W -> reply lib_exn Tensor * W;
  (* m3gnet *)
  w_M3GNet_load : W -> reply lib_exn M3Net * W;
  w_M3GNet_from_dir : string -> W -> reply lib_exn M3Net * W;
  w_Potential : M3Net -> W -> reply lib_exn M3Pot * W;
  w_m3gnet_M3GCalc : M3Pot -> bool -> W -> reply lib_exn Calc * W;
  (* chgnet, deepmd *)
  w_CHGNetCalculator : W -> reply lib_exn Calc * W;
  w_DP : option string -> W -> reply lib_exn Calc * W;
  (* pymatgen, torch *)
  w_get_structure : Pos -> CellT -> Species -> W -> reply lib_exn Struct * W;
  w_float : Tensor -> W -> reply lib_exn float * W;
  (* ase: rattle displaces positions; FixSymmetry builds the constraint and
     refines the symmetry of the object it is given, in place (positions
     and cell); a run of the optimizer moves the degrees of freedom its
     target exposes and gives, in order, the states at which it calls its
     observers *)
  w_rattle :
    num -> Pos -> CellT -> list Constr -> W -> reply lib_exn Pos * W;
  w_FixSymmetry :
    Pos -> CellT -> Species -> W -> reply lib_exn (Constr * Pos * CellT) * W;
  w_UnitCellFilter : num -> gmap string pyval -> W -> reply lib_exn unit * W;
  w_FIRE : W -> reply lib_exn unit * W;
  w_run_positions :
    option Calc -> list Constr -> Pos -> CellT -> Species -> num -> W ->
    (list Pos * option lib_exn) * W;
  w_run_cell :
    option Calc -> list Constr -> num -> gmap string pyval ->
    Pos -> CellT -> Species -> num -> W ->
    (list (Pos * CellT) * option lib_exn) * W;
  w_Trajectory : string -> W -> reply lib_exn unit * W;
  (* atomchain.frozenphonon and pyDFTutils *)
  w_calculate_phonon :
    Pos -> CellT -> Species -> Calc -> gmap string pyval -> W ->
    reply lib_exn unit * W;
  w_plot_phonon :
    pyval -> pyval -> pyval -> string -> W -> reply lib_exn unit * W;
  (* phonopy.units.VaspToTHz *)
  VaspToTHz : float
}.

Section Model.
Context {L : Libs}.

(** ** Exceptions and results *)

Inductive exn : Type :=
| ValueError (msg : string)
| KeyError (key : string)
| Delegated (e : lib_exn)
| BadRef.

Inductive result (A : Type) : Type :=
| Ok (a : A)
| Err (e : exn).
Arguments Ok {A} a.
Arguments Err {A} e.

(** ** The store *)

Definition loc := nat.

(** An [ase.Atoms] object. *)
Record Atoms : Type := mkAtoms {
  positions : Pos;
  cell : CellT;
  symbols : Species;
  constraints : list Constr;
  calc : option Calc
}.

Definition set_positions (p : Pos) (x : Atoms) : Atoms :=
  mkAtoms p (cell x) (symbols x) (constraints x) (calc x).

Definition set_cell_positions (d : Pos * CellT) (x : Atoms) : Atoms :=
  mkAtoms (fst d) (snd d) (symbols x) (constraints x) (calc x).

Definition set_calc (c : Calc) (x : Atoms) : Atoms :=
  mkAtoms (positions x) (cell x) (symbols x) (constraints x) (Some c).

(** [Atoms.set_constraint(c)]: the given constraint replaces the list. *)
Definition set_constraint_val (c : Constr) (x : Atoms) : Atoms :=
  mkAtoms (positions x) (cell x) (symbols x) [c] (calc x).

(** [Atoms.copy()]: arrays, cell and constraints are copied; the calculator
    is not carried over. *)
Definition copy_val (x : Atoms) : Atoms :=
  mkAtoms (positions x) (cell x) (symbols x) (constraints x) None.

(** What the optimizer is run on: the configuration itself, or a
    [UnitCellFilter] view of it. *)
Inductive target : Type :=
| OnAtoms (a : loc)
| OnCell (a : loc) (cell_factor : num) (kw : gmap string pyval).

Definition target_loc (t : target) : loc :=
  match t with
  | OnAtoms a => a
  | OnCell a _ _ => a
  end.

(** A [Trajectory] writer: the path it was opened on and the object whose
    state it writes. *)
Record Traj : Type := mkTraj { traj_path : string; traj_atoms : loc }.

(** A [FIRE] optimizer with its attached observers. *)
Record Opt : Type := mkOpt { opt_target : target; opt_observers : list Traj }.

(** A file: the frames of a trajectory, or anything else. *)
Inductive fcontent : Type :=
| Frames (l : list Atoms)
| Raw (bytes : string).

Definition frames_of (c : option fcontent) : list Atoms :=
  match c with
  | Some (Frames l) => l
  | _ => []
  end.

(** The calls that leave this module, in the order they are made. *)
Inductive event : Type :=
| EvImport (module : string)
| EvLoadModel (name : string)
| EvMatglCalc (pot : MatglModel) (stress_weight : float)
| EvM3GNetLoad
| EvM3GNetFromDir (path : string)
| EvPotential (net : M3Net)
| EvM3gnetCalc (pot : M3Pot) (compute_stress : bool)
| EvCHGNet
| EvDP (model : option string)
| EvRattle (a : loc) (stdev : num)
| EvFixSymmetry (a : loc)
| EvUnitCellFilter (a : loc) (cell_factor : num) (kw : gmap string pyval)
| EvFIRE (t : target)
| EvRun (t : target) (fmax : num) (observers : list Traj) (steps : list Atoms)
| EvTrajectory (path : string) (a : loc)
| EvCalculatePhonon (a : loc) (c : Calc) (args : gmap string pyval)
| EvPlotPhonon (knames kvectors npoints : pyval) (figname : string)
| EvGetStructure (a : loc)
| EvPredictStructure (m : MatglModel) (st : Struct) (state_feats : list Z)
| EvFloat (t : Tensor).

Record state : Type := mkState {
  world : W;
  heap : gmap loc Atoms;
  files : gmap string fcontent;
  trace : list event
}.

(** ** The monad: state and exceptions *)

Definition M (A : Type) : Type := state -> result A * state.

Definition ret {A} (a : A) : M A := fun s => (Ok a, s).

Definition raise {A} (e : exn) : M A := fun s => (Err e, s).

Definition bind {A B} (m : M A) (k : A -> M B) : M B :=
  fun s =>
    match m s with
    | (Ok a, s') => k a s'
    | (Err e, s') => (Err e, s')
    end.

End Model.

Arguments Ok {L A} a.
Arguments Err {L A} e.

Declare Scope py_scope.
Delimit Scope py_scope with py.
Notation "x <- m ;; k" := (bind m (fun x => k))
  (at level 100, m at next level, right associativity) : py_scope.
Notation "m ;;; k" := (bind m (fun _ => k))
  (at level 100, right associativity) : py_scope.
Local Open Scope py_scope.

Section Primitives.
Context {L : Libs}.

Definition log (ev : event) (s : state) : state :=
  mkState (world s) (heap s) (files s) (trace s ++ [ev]).

Definition with_world (w : W) (s : state) : state :=
  mkState w (heap s) (files s) (trace s).

Definition with_heap (h : gmap loc Atoms) (s : state) : state :=
  mkState (world s) h (files s) (trace s).

Definition with_files (f : gmap string fcontent) (s : state) : state :=
  mkState (world s) (heap s) f (trace s).

(** A call into a library: logged, then answered by the library. *)
Definition ext {A} (ev : event) (op : W -> reply lib_exn A * W) : M A :=
  fun s =>
    let s1 := log ev s in
    match op (world s1) with
    | (Returns a, w) => (Ok a, with_world w s1)
    | (Throws e, w) => (Err (Delegated e), with_world w s1)
    end.

Definition import (module : string) : M unit :=
  ext (EvImport module) (w_import module).

Definition deref (a : loc) : M Atoms :=
  fun s =>
    match heap s !! a with
    | Some x => (Ok x, s)
    | None => (Err BadRef, s)
    end.

Definition store (a : loc) (x : Atoms) : M unit :=
  fun s => (Ok tt, with_heap (<[a := x]> (heap s)) s).

Definition alloc (x : Atoms) : M loc :=
  fun s =>
    let a := fresh (dom (heap s)) in
    (Ok a, with_heap (<[a := x]> (heap s)) s).

End Primitives.

(** ** init_calc *)

Section InitCalc.
Context {L : Libs}.

Definition init_calc (model_type : string) (model_path : option string)
  : M Calc :=
  if String.eqb (lower model_type) "matgl" then
    import "matgl" ;;;
    import "matgl.ext.ase" ;;;
    pot <- ext (EvLoadModel "M3GNet-MP-2021.2.8-PES")
               (w_matgl_load_model "M3GNet-MP-2021.2.8-PES") ;;
    ext (EvMatglCalc pot 1.0%float) (w_matgl_M3GCalc pot 1.0%float)
  else if String.eqb (lower model_type) "m3gnet" then
    import "m3gnet.models" ;;;
    import "m3gnet.models" ;;;
    potential <-
      match model_path with
      | None =>
          net <- ext EvM3GNetLoad w_M3GNet_load ;;
          ext (EvPotential net) (w_Potential net)
      | Some path =>
          net <- ext (EvM3GNetFromDir path) (w_M3GNet_from_dir path) ;;
          ext (EvPotential net) (w_Potential net)
      end ;;
    ext (EvM3gnetCalc potential true) (w_m3gnet_M3GCalc potential true)
  else if String.eqb (lower model_type) "chgnet" then
    import "chgnet.model.dynamics" ;;;
    ext EvCHGNet w_CHGNetCalculator
  else if String.eqb (lower model_type) "deepmd" then
    import "deepmd.calculator" ;;;
    ext (EvDP model_path) (w_DP model_path)
  else
    raise (ValueError EmptyString).

End InitCalc.

(** ** ASE objects used by the relaxation *)

Section Ase.
Context {L : Libs}.

(** [atoms.copy()]: a new object. *)
Definition copy (a : loc) : M loc :=
  x <- deref a ;; alloc (copy_val x).

(** [atoms.rattle(stdev)]: displaces the positions of the object. *)
Definition rattle_atoms (a : loc) (stdev : num) : M unit :=
  x <- deref a ;;
  p <- ext (EvRattle a stdev)
           (w_rattle stdev (positions x) (cell x) (constraints x)) ;;
  store a (set_positions p x).

(** [atoms.calc = calc]. *)
Definition set_calculator (a : loc) (c : Calc) : M unit :=
  x <- deref a ;; store a (set_calc c x).

(** [FixSymmetry(atoms)]: the constructor receives the object itself and
    refines its symmetry in place before returning the constraint. *)
Definition FixSymmetry (a : loc) : M Constr :=
  x <- deref a ;;
  r <- ext (EvFixSymmetry a)
           (w_FixSymmetry (positions x) (cell x) (symbols x)) ;;
  store a (set_cell_positions (snd (fst r), snd r) x) ;;;
  ret (fst (fst r)).

(** [atoms.set_constraint(c)]. *)
Definition set_constraint (a : loc) (c : Constr) : M unit :=
  x <- deref a ;; store a (set_constraint_val c x).

(** [UnitCellFilter(atoms, cell_factor=..., **kw)]: a view that holds a
    reference to the object. *)
Definition UnitCellFilter (a : loc) (cell_factor : num)
    (kw : gmap string pyval) : M target :=
  ext (EvUnitCellFilter a cell_factor kw) (w_UnitCellFilter cell_factor kw) ;;;
  ret (OnCell a cell_factor kw).

(** [FIRE(target)]: a new optimizer, no observer attached. *)
Definition FIRE (t : target) : M Opt :=
  ext (EvFIRE t) w_FIRE ;;; ret (mkOpt t []).

(** [Trajectory(path, "w", atoms)]: mode "w" truncates the file. *)
Definition Trajectory (path : string) (a : loc) : M Traj :=
  ext (EvTrajectory path a) (w_Trajectory path) ;;;
  (fun s => (Ok (mkTraj path a),
             with_files (<[path := Frames []]> (files s)) s)).

(** [opt.attach(traj)]. *)
Definition attach (opt : Opt) (t : Traj) : Opt :=
  mkOpt (opt_target opt) (opt_observers opt ++ [t]).

(** One observer call: the writer appends the current state of its object. *)
Definition write_frame (h : gmap loc Atoms) (f : gmap string fcontent)
    (t : Traj) : gmap string fcontent :=
  match h !! traj_atoms t with
  | Some x => <[traj_path t := Frames (frames_of (f !! traj_path t) ++ [x])]> f
  | None => f
  end.

(** One report of the optimizer: the object at [a] is in state [x], and
    every attached observer is called. *)
Definition iterate (a : loc) (obs : list Traj) (s : state) (x : Atoms)
  : state :=
  let h := <[a := x]> (heap s) in
  mkState (world s) h (fold_left (write_frame h) obs (files s)) (trace s).

(** The states a run on a target passes through and reports: on the plain
    object only positions move, through a cell filter positions and cell
    move. *)
Definition iterations (t : target) (x : Atoms) (fmax : num) (w : W)
  : (list Atoms * option lib_exn) * W :=
  match t with
  | OnAtoms _ =>
      let r := w_run_positions (calc x) (constraints x) (positions x)
                               (cell x) (symbols x) fmax w in
      (map (fun p => set_positions p x) (fst (fst r)), snd (fst r), snd r)
  | OnCell _ cf kw =>
      let r := w_run_cell (calc x) (constraints x) cf kw (positions x)
                          (cell x) (symbols x) fmax w in
      (map (fun d => set_cell_positions d x) (fst (fst r)), snd (fst r), snd r)
  end.

(** [opt.run(fmax=...)]. *)
Definition run (opt : Opt) (fmax : num) : M unit :=
  fun s =>
    let a := target_loc (opt_target opt) in
    match heap s !! a with
    | None => (Err BadRef, s)
    | Some x =>
        let r := iterations (opt_target opt) x fmax (world s) in
        let steps := fst (fst r) in
        let s1 := log (EvRun (opt_target opt) fmax (opt_observers opt) steps)
                      (with_world (snd r) s) in
        let s2 := fold_left (iterate a (opt_observers opt)) steps s1 in
        match snd (fst r) with
        | None => (Ok tt, s2)
        | Some e => (Err (Delegated e), s2)
        end
    end.

End Ase.

(** ** relax_with_ml *)

Section Relax.
Context {L : Libs}.

(** The [calc] argument: a backend tag, nothing, or a ready calculator. *)
Inductive calc_arg : Type :=
| CalcTag (tag : string)
| CalcNone
| CalcObj (c : Calc).

Record relax_opts : Type := mkRelaxOpts {
  relax_cell : bool;
  sym : bool;
  traj_file : string;
  output_file : string;
  model_path : option string;
  fmax : num;
  cell_factor : num;
  rattle : option num;
  ucf_kwargs : gmap string pyval
}.

Definition relax_defaults : relax_opts :=
  mkRelaxOpts true true "relax.traj" "POSCAR_relax.vasp" None
              (Float 0.001%float) (Int 1000) None ∅.

Definition relax_with_ml (atoms : loc) (calc : calc_arg) (o : relax_opts)
  : M loc :=
  catoms <- copy atoms ;;
  match rattle o with
  | Some r => rattle_atoms catoms r
  | None => ret tt
  end ;;;
  calc <- match calc with
          | CalcTag tag => init_calc tag (model_path o)
          | CalcNone => init_calc "chgnet" None
          | CalcObj c => ret c
          end ;;
  set_calculator catoms calc ;;;
  (if sym o
   then c <- FixSymmetry catoms ;; set_constraint catoms c
   else ret tt) ;;;
  opt <- (if relax_cell o
          then
            ecf <- UnitCellFilter catoms (cell_factor o) (ucf_kwargs o) ;;
            opt <- FIRE ecf ;;
            run opt (mul10 (fmax o)) ;;;
            opt <- FIRE ecf ;;
            run opt (fmax o) ;;;
            ret opt
          else FIRE (OnAtoms catoms)) ;;
  traj <- Trajectory (traj_file o) catoms ;;
  let opt := attach opt traj in
  run opt (fmax o) ;;;
  ret catoms.

End Relax.

(** ** relax_with_matgl *)

Section RelaxMatgl.
Context {L : Libs}.

(** [relax_with_matgl(atoms, **kwargs)]: the keyword arguments are those of
    [relax_with_ml] other than [calc], which is passed positionally. *)
Definition relax_with_matgl (atoms : loc) (kwargs : relax_opts) : M loc :=
  import "matgl" ;;;
  import "matgl.ext.ase" ;;;
  pot <- ext (EvLoadModel "M3GNet-MP-2021.2.8-PES")
             (w_matgl_load_model "M3GNet-MP-2021.2.8-PES") ;;
  calc <- ext (EvMatglCalc pot 1.0%float) (w_matgl_M3GCalc pot 1.0%float) ;;
  relax_with_ml atoms (CalcObj calc) kwargs.

End RelaxMatgl.

(** ** phonon_with_ml *)

Section Phonon.
Context {L : Libs}.

(** The literal [dict(...)] of the source. *)
Definition phon_defaults : gmap string pyval :=
  list_to_map
    [ ("forces_set_file", PyNone);
      ("ndim", PyMatI (np_diag [2; 2; 2]));
      ("primitive_matrix", PyMatF (np_eye 3));
      ("distance", PyFloat 0.05%float);
      ("factor", PyFloat VaspToTHz);
      ("is_plusminus", PyStr "auto");
      ("is_symmetry", PyBool true);
      ("symprec", PyFloat 1e-3%float);
      ("func", PyNone);
      ("prepare_initial_wavecar", PyBool false);
      ("skip", PyNone);
      ("restart", PyBool false);
      ("parallel", PyBool false);
      ("sc_mag", PyNone);
      ("mask_force", PyList [PyInt 1; PyInt 1; PyInt 1]) ].

(** [d.update(kw)]: every key of [kw] is set in [d] to the value [kw]
    gives it. *)
Definition dict_update (d kw : gmap string pyval) : gmap string pyval :=
  map_fold (fun k v acc => <[k := v]> acc) d kw.

Definition phon_args (kwargs : gmap string pyval) : gmap string pyval :=
  dict_update phon_defaults kwargs.

(** [atomchain.frozenphonon.calculate_phonon(atoms, calc=calc, **args)];
    the routine is outside this module.  The model keeps the call and its
    arguments; the files the routine writes are its own business. *)
Definition calculate_phonon (a : loc) (c : Calc) (args : gmap string pyval)
  : M unit :=
  x <- deref a ;;
  ext (EvCalculatePhonon a c args)
      (w_calculate_phonon (positions x) (cell x) (symbols x) c args).

(** [plot_phonon(path="./", knames=..., kvectors=..., npoints=...,
    figname=..., show=True)]; as for the phonon routine, the model keeps the
    call, not the figure it renders. *)
Definition plot_phonon (knames kvectors npoints : pyval) (figname : string)
  : M unit :=
  ext (EvPlotPhonon knames kvectors npoints figname)
      (w_plot_phonon knames kvectors npoints figname).

Definition phonon_with_ml (atoms : loc) (calc : calc_arg) (relax plot : bool)
    (knames kvectors npoints : pyval) (figname : string)
    (kwargs : gmap string pyval) : M unit :=
  calc <- match calc with
          | CalcTag tag => init_calc tag None
          | CalcNone => init_calc "chgnet" None
          | CalcObj c => ret c
          end ;;
  atoms <- (if relax
            then relax_with_ml atoms (CalcObj calc) relax_defaults
            else ret atoms) ;;
  calculate_phonon atoms calc (phon_args kwargs) ;;;
  if plot
  then import "pyDFTutils.phonon.plotphonopy" ;;;
       plot_phonon knames kvectors npoints figname
  else ret tt.

End Phonon.

(** ** The band-gap predictor *)

Section Gap.
Context {L : Libs}.

Definition XCdict : gmap string Z :=
  list_to_map [("PBE", 0); ("GLLB-SC", 1); ("HSE", 2); ("SCAN", 3)].

Definition ase_to_pymatgen (atoms : loc) : M Struct :=
  import "pymatgen.io.ase" ;;;
  x <- deref atoms ;;
  ext (EvGetStructure atoms)
      (w_get_structure (positions x) (cell x) (symbols x)).

Record MatGLGapPredictor : Type := mkPredictor { _model : MatglModel }.

(** [MatGLGapPredictor.__init__]. *)
Definition MatGLGapPredictor_init : M MatGLGapPredictor :=
  import "matgl" ;;;
  m <- ext (EvLoadModel "MEGNet-MP-2019.4.1-BandGap-mfi")
           (w_matgl_load_model "MEGNet-MP-2019.4.1-BandGap-mfi") ;;
  ret (mkPredictor m).

(** [MatGLGapPredictor.predict_gap]; [torch.tensor([n])] is the one-element
    integer tensor, written as the list it holds. *)
Definition MatGLGapPredictor_predict_gap (self : MatGLGapPredictor)
    (atoms : loc) (xc : string) : M float :=
  import "torch" ;;;
  struct <- ase_to_pymatgen atoms ;;
  code <- match XCdict !! xc with
          | Some n => ret n
          | None => raise (KeyError xc)
          end ;;
  let graph_attrs := [code] in
  bandgap <- ext (EvPredictStructure (_model self) struct graph_attrs)
                 (w_predict_structure (_model self) struct graph_attrs) ;;
  ext (EvFloat bandgap) (w_float bandgap).

(** The module-level [predict_gap(atoms, xc="PBE")]. *)
Definition predict_gap (atoms : loc) (xc : string) : M float :=
  p <- MatGLGapPredictor_init ;;
  MatGLGapPredictor_predict_gap p atoms xc.

End Gap.

(** ** A test double for the libraries

    All opaque objects are small concrete values.  The library state counts
    optimizer runs: the first two runs take one step each and report the
    state after it, later runs find the configuration converged, take no
    step and report nothing.  The symmetry
    constraint's constructor refines the cell it is given (here: adds 1). *)

Module Mock.

Definition ok {A : Type} (a : A) (w : nat) : reply string A * nat :=
  (Returns a, w).

Definition libs : Libs := {|
  W := nat;
  lib_exn := string;
  Pos := Z;
  CellT := Z;
  Species := string;
  Constr := string;
  Calc := string;
  MatglModel := string;
  M3Net := string;
  M3Pot := string;
  Struct := Z;
  Tensor := float;
  w_import := fun _ => ok tt;
  w_matgl_load_model := fun name => ok name;
  w_matgl_M3GCalc := fun _ _ => ok "M3GCalc(matgl)";
  w_predict_structure := fun _ _ feats =>
    ok (if Z.eqb (hd 0 feats) 0 then 0.5%float else 3.5%float);
  w_M3GNet_load := ok "M3GNet";
  w_M3GNet_from_dir := fun path => ok path;
  w_Potential := fun net => ok net;
  w_m3gnet_M3GCalc := fun _ _ => ok "M3GCalc(m3gnet)";
  w_CHGNetCalculator := ok "CHGNet";
  w_DP := fun _ => ok "DP";
  w_get_structure := fun p c _ => ok (p + c);
  w_float := fun t => ok t;
  w_rattle := fun _ p _ _ => ok (p + 100);
  w_FixSymmetry := fun p c _ => ok ("FixSymmetry", p, c + 1);
  w_UnitCellFilter := fun _ _ => ok tt;
  w_FIRE := ok tt;
  w_run_positions := fun _ _ p _ _ _ w =>
    ((if Nat.ltb w 2 then [p + 1] else [], None), S w);
  w_run_cell := fun _ _ _ _ p c _ _ w =>
    ((if Nat.ltb w 2 then [(p + 1, c + 10)] else [], None), S w);
  w_Trajectory := fun _ => ok tt;
  w_calculate_phonon := fun _ _ _ _ _ => ok tt;
  w_plot_phonon := fun _ _ _ _ => ok tt;
  VaspToTHz := 15.633302%float
|}.

(** One configuration in the store, at reference 0, and one stale file. *)
Definition atoms0 : @Atoms libs := mkAtoms (L := libs) 5 7 "Si2" [] None.

Definition s0 : @state libs :=
  mkState (L := libs) 0%nat {[ 0%nat := atoms0 ]}
          {[ "POSCAR_relax.vasp" := Raw "old" ]} [].

End Mock.

(** Two runs of the relaxation on the test double. *)

Module MockRuns.

(** Defaults: cell relaxation with the symmetry constraint. *)
Definition default_run :=
  relax_with_ml (L := Mock.libs) 0%nat (CalcObj (L := Mock.libs) "c")
                relax_defaults Mock.s0.

(** Positions only, symmetry constraint on. *)
Definition fixed_cell_opts : relax_opts :=
  mkRelaxOpts false true "relax.traj" "POSCAR_relax.vasp" None
              (Float 0.001%float) (Int 1000) None ∅.

Definition fixed_cell_run :=
  relax_with_ml (L := Mock.libs) 0%nat (CalcObj (L := Mock.libs) "c")
                fixed_cell_opts Mock.s0.

End MockRuns.

(** Further runs on the test double. *)

Module MockMore.

(** A perturbed, positions-only relaxation with a backend tag. *)
Definition rattled_opts : relax_opts :=
  mkRelaxOpts false true "relax.traj" "POSCAR_relax.vasp" None
              (Float 0.001%float) (Int 1000) (Some (Float 0.1%float)) ∅.

Definition rattled_run :=
  relax_with_ml (L := Mock.libs) 0%nat (CalcTag "ChgNet") rattled_opts
                Mock.s0.

(** A phonon calculation with relaxation and plot. *)
Definition phonon_run :=
  phonon_with_ml (L := Mock.libs) 0%nat CalcNone true true PyNone PyNone
                 (PyInt 100) "phonon.pdf" ∅ Mock.s0.

End MockMore.

(** * Vocabulary of the statements *)

Section Vocabulary.
Context {L : Libs}.

(** A library operation that cannot fail. *)
Definition always {A} (op : W -> reply lib_exn A * W) : Prop :=
  forall w, exists a w', op w = (Returns a, w').

(** The tags the selector recognises, after lowering. *)
Definition backend_tags : list string :=
  ["matgl"; "m3gnet"; "chgnet"; "deepmd"].

(** The calls that build a calculator object. *)
Definition calc_constructor (ev : event) : bool :=
  match ev with
  | EvMatglCalc _ _ | EvM3gnetCalc _ _ | EvCHGNet | EvDP _ => true
  | _ => false
  end.

(** Every library call the selector can make succeeds. *)
Definition backends_load : Prop :=
  (forall m, always (w_import m)) /\
  (forall n, always (w_matgl_load_model n)) /\
  (forall p f, always (w_matgl_M3GCalc p f)) /\
  always w_M3GNet_load /\
  (forall d, always (w_M3GNet_from_dir d)) /\
  (forall n, always (w_Potential n)) /\
  (forall p b, always (w_m3gnet_M3GCalc p b)) /\
  always w_CHGNetCalculator /\
  (forall p, always (w_DP p)).

(** Calls of the band-gap model, and loads from the model registry. *)
Definition is_predict (ev : event) : bool :=
  match ev with
  | EvPredictStructure _ _ _ => true
  | _ => false
  end.

Definition is_load (ev : event) : bool :=
  match ev with
  | EvLoadModel _ => true
  | _ => false
  end.

Definition loads (tr : list event) : nat :=
  length (List.filter is_load tr).

Definition gap_model_name : string := "MEGNet-MP-2019.4.1-BandGap-mfi".

(** [keeps I m Q]: running [m] from a state in [I] ends in [I], whatever
    the outcome, and a returned value satisfies [Q]. *)
Definition keeps {A} (I : state -> Prop) (m : M A) (Q : A -> Prop) : Prop :=
  forall s, I s -> I (snd (m s)) /\ forall v, fst (m s) = Ok v -> Q v.

(** Stability of an invariant under what a step does to the state. *)
Definition call_stable (I : state -> Prop) (ev : event) : Prop :=
  forall s w, I s -> I (mkState w (heap s) (files s) (trace s ++ [ev])).

Definition write_stable (I : state -> Prop) (a : loc) : Prop :=
  forall s x, I s -> I (with_heap (<[a := x]> (heap s)) s).

Definition iterate_stable (I : state -> Prop) (a : loc) (obs : list Traj)
  : Prop :=
  forall s x, I s -> I (iterate a obs s x).

Definition truncate_stable (I : state -> Prop) (path : string) : Prop :=
  forall s, I s -> I (with_files (<[path := Frames []]> (files s)) s).

(** The calls the relaxation can make. *)
Definition relax_event (ev : event) : bool :=
  match ev with
  | EvCalculatePhonon _ _ _ | EvPlotPhonon _ _ _ _ | EvGetStructure _
  | EvPredictStructure _ _ _ | EvFloat _ => false
  | _ => true
  end.

(** The calls the backend selector can make. *)
Definition backend_event (ev : event) : bool :=
  match ev with
  | EvImport _ | EvLoadModel _ | EvMatglCalc _ _ | EvM3GNetLoad
  | EvM3GNetFromDir _ | EvPotential _ | EvM3gnetCalc _ _ | EvCHGNet
  | EvDP _ => true
  | _ => false
  end.

(** Calls made before the optimizer is built. *)
Definition setup_event (ev : event) : bool :=
  match ev with
  | EvRattle _ _ | EvFixSymmetry _ => true
  | _ => backend_event ev
  end.

(** An invariant tolerates the private copy at [c] and its trajectory at
    [path]: writes to the copy, optimizer iterations on it with or without
    the recorder, and opening the trajectory file. *)
Definition private_stable (I : state -> Prop) (c : loc) (path : string)
  : Prop :=
  write_stable I c /\
  iterate_stable I c [] /\
  iterate_stable I c [mkTraj path c] /\
  truncate_stable I path.

(** The same options with another [output_file]. *)
Definition set_output_file (o : relax_opts) (f : string) : relax_opts :=
  mkRelaxOpts (relax_cell o) (sym o) (traj_file o) f (model_path o) (fmax o)
              (cell_factor o) (rattle o) (ucf_kwargs o).

(** The private copy at [c] while it is being set up: what it holds, and
    what the run has done to files and trace since [s0]. *)
Definition at_copy (c : loc) (s0 s : state) (y : Atoms) (evs : list event)
  : Prop :=
  heap s !! c = Some y /\ files s = files s0 /\
  trace s = trace s0 ++ evs /\ forallb setup_event evs = true.

(** The states the optimizer passed through in a stretch of the trace. *)
Definition steps_taken (evs : list event) : list Atoms :=
  flat_map (fun ev =>
              match ev with
              | EvRun _ _ _ steps => steps
              | _ => []
              end) evs.

(** No optimizer run in a stretch of the trace had an observer attached. *)
Definition unobserved (evs : list event) : Prop :=
  forall t f obs steps, In (EvRun t f obs steps) evs -> obs = [].

(** The invariant behind "what reaches the phonon routine": every call of
    it made since [s0] carries the dictionary [d]. *)
Definition phonon_calls_carry (s0 : state) (d : gmap string pyval)
    (s : state) : Prop :=
  forall a c args,
    In (EvCalculatePhonon a c args) (trace s) ->
    In (EvCalculatePhonon a c args) (trace s0) \/ args = d.

(** The modules the backend selector imports. *)
Definition backend_modules : list string :=
  ["matgl"; "matgl.ext.ase"; "m3gnet.models"; "chgnet.model.dynamics";
   "deepmd.calculator"].

(** The calls the backend selector can make, imports by name. *)
Definition selector_event (ev : event) : bool :=
  match ev with
  | EvImport m => bool_decide (m ∈ backend_modules)
  | _ => backend_event ev
  end.

(** The calls into ASE: perturbation, constraint, filter, optimizer,
    trajectory. *)
Definition ase_event (ev : event) : bool :=
  match ev with
  | EvRattle _ _ | EvFixSymmetry _ | EvUnitCellFilter _ _ _ | EvFIRE _
  | EvRun _ _ _ _ | EvTrajectory _ _ => true
  | _ => false
  end.

(** The random perturbation of the positions. *)
Definition is_rattle (ev : event) : bool :=
  match ev with
  | EvRattle _ _ => true
  | _ => false
  end.

(** The calls of the plotting stage. *)
Definition plot_event (ev : event) : bool :=
  match ev with
  | EvImport m => String.eqb m "pyDFTutils.phonon.plotphonopy"
  | EvPlotPhonon _ _ _ _ => true
  | _ => false
  end.

(** What [phonon_with_ml] may call when it does not relax first: anything
    but ASE, and the phonon routine only on the reference [atoms]. *)
Definition unrelaxed_event (atoms : loc) (ev : event) : bool :=
  match ev with
  | EvCalculatePhonon a _ _ => Nat.eqb a atoms
  | _ => negb (ase_event ev)
  end.

(** The plotting stage of [phonon_with_ml]. *)
Definition plot_stage (knames kvectors npoints : pyval) (figname : string)
  : M unit :=
  bind (import "pyDFTutils.phonon.plotphonopy")
       (fun _ => plot_phonon knames kvectors npoints figname).

(** Two states of one configuration that differ at most in positions and
    cell: same calculator, same species, same constraints. *)
Definition same_identity (y z : Atoms) : Prop :=
  calc z = calc y /\ symbols z = symbols y /\ constraints z = constraints y.

(** The fifteen option names of the source's literal. *)
Definition phon_option_names : list string :=
  ["forces_set_file"; "ndim"; "primitive_matrix"; "distance"; "factor";
   "is_plusminus"; "is_symmetry"; "symprec"; "func";
   "prepare_initial_wavecar"; "skip"; "restart"; "parallel"; "sc_mag";
   "mask_force"].

(** The calls of the two optional steps of the relaxation. *)
Definition rattle_calls (c : loc) (o : relax_opts) : list event :=
  match rattle o with
  | Some r => [EvRattle c r]
  | None => []
  end.

Definition sym_calls (c : loc) (o : relax_opts) : list event :=
  if sym o then [EvFixSymmetry c] else [].

(** The calls of the optimization schedule on the copy [c], given the
    iterations of its passes. *)
Definition schedule_calls (c : loc) (o : relax_opts)
    (passes : list (list Atoms)) : list event :=
  let ecf := OnCell c (cell_factor o) (ucf_kwargs o) in
  let traj := mkTraj (traj_file o) c in
  match relax_cell o, passes with
  | true, [st1; st2; st3] =>
      [EvUnitCellFilter c (cell_factor o) (ucf_kwargs o);
       EvFIRE ecf; EvRun ecf (mul10 (fmax o)) [] st1;
       EvFIRE ecf; EvRun ecf (fmax o) [] st2;
       EvTrajectory (traj_file o) c; EvRun ecf (fmax o) [traj] st3]
  | false, [st] =>
      [EvFIRE (OnAtoms c); EvTrajectory (traj_file o) c;
       EvRun (OnAtoms c) (fmax o) [traj] st]
  | _, _ => []
  end.

(** The same options with another [model_path]. *)
Definition set_model_path (o : relax_opts) (p : option string)
  : relax_opts :=
  mkRelaxOpts (relax_cell o) (sym o) (traj_file o) (output_file o) p (fmax o)
              (cell_factor o) (rattle o) (ucf_kwargs o).

(** The calculator stage shared by the relaxation and phonon procedures. *)
Definition resolve (calc : calc_arg) (path : option string) : M Calc :=
  match calc with
  | CalcTag tag => init_calc tag path
  | CalcNone => init_calc "chgnet" None
  | CalcObj c => ret c
  end.

(** A stretch of the trace all of whose calls are in a class. *)
Definition all_calls (P : event -> bool) (s0 s : state) : Prop :=
  exists evs, trace s = trace s0 ++ evs /\ forallb P evs = true.

(** "Ten times" a threshold, as the description of the schedule has it:
    the product with 10, exact on integers and rounded once on floats. *)
Definition ten_times (x y : num) : Prop :=
  match x, y with
  | Int a, Int b => b = 10 * a
  | Float a, Float b => b = (a * 10)%float
  | _, _ => False
  end.

(** Every library call the predictor's method can make succeeds. *)
Definition gap_libs_return : Prop :=
  (forall m, always (w_import m)) /\
  (forall p c sp, always (w_get_structure p c sp)) /\
  (forall m st f, always (w_predict_structure m st f)) /\
  (forall t, always (w_float t)).

(** Calls of the phonon routine. *)
Definition is_phonon_call (ev : event) : bool :=
  match ev with
  | EvCalculatePhonon _ _ _ => true
  | _ => false
  end.

End Vocabulary.

(** * Properties *)

(** ** Running the monad *)

Section Running.
Context {L : Libs}.

Lemma bind_ok_inv {A B} (m : M A) (k : A -> M B) s b s' :
  bind m k s = (Ok b, s') ->
  exists a s1, m s = (Ok a, s1) /\ k a s1 = (Ok b, s').
Proof.
  unfold bind. destruct (m s) as [[a | e] s1]; intros H.
  - exists a, s1. split; [reflexivity | exact H].
  - discriminate H.
Qed.

Lemma bind_run {A B} (m : M A) (k : A -> M B) s :
  bind m k s =
  match m s with
  | (Ok a, s1) => k a s1
  | (Err e, s1) => (Err e, s1)
  end.
Proof. reflexivity. Qed.

Lemma ext_run {A} ev (op : W -> reply lib_exn A * W) s :
  ext ev op s =
  match op (world s) with
  | (Returns a, w) => (Ok a, mkState w (heap s) (files s) (trace s ++ [ev]))
  | (Throws e, w) =>
      (Err (Delegated e), mkState w (heap s) (files s) (trace s ++ [ev]))
  end.
Proof.
  unfold ext. cbn. destruct (op (world s)) as [[a | e] w]; reflexivity.
Qed.

Lemma deref_run a s :
  deref a s =
  match heap s !! a with
  | Some x => (Ok x, s)
  | None => (Err BadRef, s)
  end.
Proof. reflexivity. Qed.
Lemma ret_run {A} (a : A) s : ret a s = (Ok a, s).
Proof. reflexivity. Qed.
Lemma raise_run {A} e s : raise (A := A) e s = (Err e, s).
Proof. reflexivity. Qed.

End Running.

(** ** The backend selector *)

(** Symbolic execution of one library call or one bind in the goal. *)
Ltac run_one :=
  match goal with
  | |- context [ext ?ev ?op ?s] =>
      rewrite (ext_run ev op s);
      let a := fresh "a" in
      let e := fresh "e" in
      let w := fresh "w" in
      let E := fresh "E" in
      destruct (op (world s)) as [[a | e] w] eqn:E;
      cbn [fst snd world heap files trace] in *
  | |- context [bind ?m ?k ?s] => rewrite (bind_run m k s)
  | |- context [match ?o with Some _ => _ | None => _ end] => destruct o
  end.

(** The trace grew by a known, non-empty list: split off its last call. *)
Ltac split_trace :=
  match goal with
  | |- exists pre ev, ?tr ++ ?l = @?r pre ev /\ @?c pre ev =>
      exists (removelast l), (List.last l EvCHGNet); split; reflexivity
  end.

(** A call that failed contradicts the assumption that it never does. *)
Ltac refute_always :=
  match goal with
  | E : ?op ?w = (Throws _, _) |- _ =>
      let A := fresh "A" in
      assert (A : always op) by auto;
      destruct (A w) as (? & ? & ?); congruence
  end.

Section InitCalcProofs.
Context {L : Libs}.

Lemma backend_tag_cases (t : string) :
  In t backend_tags ->
  t = "matgl" \/ t = "m3gnet" \/ t = "chgnet" \/ t = "deepmd".
Proof. cbn. intuition auto. Qed.

(** On a recognised tag the selector ends in a constructor call, or in the
    failure of some library call. *)
Lemma init_calc_outcome model_type model_path s :
  In (lower model_type) backend_tags ->
  match init_calc model_type model_path s with
  | (Ok c, s') =>
      exists pre ev,
        trace s' = trace s ++ pre ++ [ev] /\ calc_constructor ev = true
  | (Err e, s') => (exists x, e = Delegated x) /\ ~ backends_load
  end.
Proof.
  intros H. apply backend_tag_cases in H. unfold init_calc, import.
  destruct H as [H | [H | [H | H]]]; rewrite H;
    cbn [String.eqb Ascii.eqb Bool.eqb].
  all: repeat run_one.
  all: rewrite <- ?app_assoc; cbn [app].
  all: try split_trace.
  all: (split; [eauto | ]).
  all: intros (H1 & H2 & H3 & H4 & H5 & H6 & H7 & H8 & H9); refute_always.
Qed.

Lemma init_calc_unknown model_type model_path s :
  ~ In (lower model_type) backend_tags ->
  init_calc model_type model_path s = (Err (ValueError EmptyString), s).
Proof.
  intros H. unfold init_calc, backend_tags in *.
  repeat match goal with
  | |- context [String.eqb ?a ?b] =>
      destruct (String.eqb_spec a b) as [E | _];
        [exfalso; apply H; rewrite E; cbn; tauto | ]
  end.
  reflexivity.
Qed.

(** C1.  For a tag that lowers to one of "matgl", "m3gnet", "chgnet",
    "deepmd", [init_calc] never raises an error of its own: the only way
    it does not return is a failure inside a library, passed on unchanged;
    when it returns, the last call it made is the constructor of a
    calculator; and when the libraries do not fail it returns.  For every
    other string it raises [ValueError] in the state it was called in: the
    trace is untouched, so no import and no model load was made. *)
Theorem init_calc_dispatch model_type model_path s :
  (In (lower model_type) backend_tags ->
     (forall e, fst (init_calc model_type model_path s) = Err e ->
                exists x, e = Delegated x) /\
     (forall c, fst (init_calc model_type model_path s) = Ok c ->
                exists pre ev,
                  trace (snd (init_calc model_type model_path s))
                  = trace s ++ pre ++ [ev] /\
                  calc_constructor ev = true) /\
     (backends_load ->
      exists c, fst (init_calc model_type model_path s) = Ok c)) /\
  (~ In (lower model_type) backend_tags ->
     init_calc model_type model_path s = (Err (ValueError EmptyString), s)).
Proof.
  split.
  - intros H. pose proof (init_calc_outcome model_type model_path s H) as O.
    destruct (init_calc model_type model_path s) as [[c | e] s'];
      cbn [fst snd].
    + split; [intros e E; discriminate E | ].
      split; [intros c' _; exact O | ].
      intros _. exists c. reflexivity.
    + destruct O as [D N].
      split; [intros e' E; inversion E; subst; exact D | ].
      split; [intros c E; discriminate E | ].
      intros B. contradiction.
  - apply init_calc_unknown.
Qed.

End InitCalcProofs.

Lemma mock_backends_load : backends_load (L := Mock.libs).
Proof.
  unfold backends_load, always. cbn. unfold Mock.ok.
  repeat split; intros; eauto.
Qed.

(** C1 at the test double: a mixed-case tag is accepted, an unknown tag is
    rejected without a single call. *)
Lemma init_calc_dispatch_witness :
  (exists c, fst (init_calc (L := Mock.libs) "CHGNet" None Mock.s0) = Ok c) /\
  init_calc (L := Mock.libs) "lammps" None Mock.s0
  = (Err (ValueError EmptyString), Mock.s0).
Proof.
  split.
  - apply (init_calc_dispatch (L := Mock.libs) "CHGNet" None Mock.s0).
    + cbn. tauto.
    + exact mock_backends_load.
  - apply (init_calc_dispatch (L := Mock.libs) "lammps" None Mock.s0).
    cbn. intuition discriminate.
Defined.

(** ** The band-gap predictor *)

Ltac run_step :=
  first
    [ run_one
    | rewrite ret_run
    | rewrite raise_run
    | match goal with
      | |- context [deref ?a ?s] =>
          rewrite (deref_run a s);
          let x := fresh "x" in
          let E := fresh "E" in
          destruct (heap s !! a) as [x | ] eqn:E;
          cbn [fst snd world heap files trace] in *
      end ].

Ltac same_trace :=
  match goal with
  | |- exists evs, ?tr ++ ?l = @?r evs /\ @?c evs =>
      exists l; split; [reflexivity | ]
  end.

Ltac in_cases H :=
  cbn [In] in H;
  repeat match type of H with
         | _ \/ _ => destruct H as [H | H]
         end;
  try discriminate H; try contradiction.

Section GapProofs.
Context {L : Libs}.

Lemma XCdict_table :
  XCdict !! "PBE" = Some 0 /\ XCdict !! "GLLB-SC" = Some 1 /\
  XCdict !! "HSE" = Some 2 /\ XCdict !! "SCAN" = Some 3 /\
  forall k, k <> "PBE" -> k <> "GLLB-SC" -> k <> "HSE" -> k <> "SCAN" ->
            XCdict !! k = None.
Proof.
  unfold XCdict. cbn [list_to_map foldr uncurry fst snd].
  repeat split; try reflexivity.
  intros k H1 H2 H3 H4.
  rewrite !lookup_insert_ne by congruence. apply lookup_empty.
Qed.

Lemma predict_gap_unfold (self : MatGLGapPredictor) atoms xc s :
  MatGLGapPredictor_predict_gap self atoms xc s =
  match import "torch" s with
  | (Ok _, s1) =>
      match ase_to_pymatgen atoms s1 with
      | (Ok st, s2) =>
          match XCdict !! xc with
          | Some n =>
              bind (ext (EvPredictStructure (_model self) st [n])
                        (w_predict_structure (_model self) st [n]))
                   (fun t => ext (EvFloat t) (w_float t)) s2
          | None => (Err (KeyError xc), s2)
          end
      | (Err e, s2) => (Err e, s2)
      end
  | (Err e, s1) => (Err e, s1)
  end.
Proof.
  unfold MatGLGapPredictor_predict_gap. rewrite !bind_run.
  destruct (import "torch" s) as [[[] | e] s1]; [ | reflexivity].
  rewrite bind_run.
  destruct (ase_to_pymatgen atoms s1) as [[st | e] s2]; [ | reflexivity].
  rewrite bind_run. destruct (XCdict !! xc); reflexivity.
Qed.

(** C3.  The label table is PBE=0, GLLB-SC=1, HSE=2, SCAN=3 and nothing
    else.  For a label with code [n], [MatGLGapPredictor.predict_gap]
    raises no error of its own: what it raises comes from a library (or
    from a dangling reference).  Once the import of torch and the
    structure conversion have succeeded, the next call is the model's
    [predict_structure] on the predictor's own model with the one-element
    feature [n], whatever happens later, and when that call and the float
    conversion return, the method returns the converted prediction.  Every
    call of [predict_structure] it makes has that form, and a returned
    float is the conversion of what the call predicted.  When no library
    call fails, the method returns.  For a label outside the table the
    method never returns a value and never calls the model; once the
    import of torch and the structure conversion have succeeded, what it
    raises is [KeyError] on that label. *)
Theorem predict_gap_encoding (self : MatGLGapPredictor) atoms xc s :
  (XCdict !! "PBE" = Some 0 /\ XCdict !! "GLLB-SC" = Some 1 /\
   XCdict !! "HSE" = Some 2 /\ XCdict !! "SCAN" = Some 3 /\
   forall k, k <> "PBE" -> k <> "GLLB-SC" -> k <> "HSE" -> k <> "SCAN" ->
             XCdict !! k = None) /\
  (forall n, XCdict !! xc = Some n ->
     match MatGLGapPredictor_predict_gap self atoms xc s with
     | (Ok g, s') =>
         exists pre st t,
           trace s' = trace s ++ pre
                      ++ [EvPredictStructure (_model self) st [n]; EvFloat t] /\
           forallb (fun ev => negb (is_predict ev)) pre = true /\
           exists w1 w2 w3,
             w_predict_structure (_model self) st [n] w1 = (Returns t, w2) /\
             w_float t w2 = (Returns g, w3)
     | (Err e, s') =>
         ((exists x, e = Delegated x) \/
          (e = BadRef /\ heap s !! atoms = None)) /\
         exists evs,
           trace s' = trace s ++ evs /\
           forall m st f, In (EvPredictStructure m st f) evs ->
                          m = _model self /\ f = [n]
     end /\
     (forall s1 st s2,
        import "torch" s = (Ok tt, s1) ->
        ase_to_pymatgen atoms s1 = (Ok st, s2) ->
        (exists evs,
           trace (snd (MatGLGapPredictor_predict_gap self atoms xc s))
           = trace s2 ++ EvPredictStructure (_model self) st [n] :: evs) /\
        forall t w3 g w4,
          w_predict_structure (_model self) st [n] (world s2)
          = (Returns t, w3) ->
          w_float t w3 = (Returns g, w4) ->
          MatGLGapPredictor_predict_gap self atoms xc s
          = (Ok g,
             mkState w4 (heap s2) (files s2)
               (trace s2
                ++ [EvPredictStructure (_model self) st [n]; EvFloat t]))) /\
     (gap_libs_return -> is_Some (heap s !! atoms) ->
      exists g, fst (MatGLGapPredictor_predict_gap self atoms xc s) = Ok g)) /\
  (XCdict !! xc = None ->
     (forall g, fst (MatGLGapPredictor_predict_gap self atoms xc s) <> Ok g) /\
     (exists evs,
        trace (snd (MatGLGapPredictor_predict_gap self atoms xc s))
        = trace s ++ evs /\
        forallb (fun ev => negb (is_predict ev)) evs = true) /\
     (forall s1 st s2,
        import "torch" s = (Ok tt, s1) ->
        ase_to_pymatgen atoms s1 = (Ok st, s2) ->
        MatGLGapPredictor_predict_gap self atoms xc s
        = (Err (KeyError xc), s2))).
Proof.
  split; [exact XCdict_table | ].
  split.
  - intros n H. split; [ | split].
    + unfold MatGLGapPredictor_predict_gap, ase_to_pymatgen, import.
      rewrite H. repeat run_step.
      all: rewrite <- ?app_assoc; cbn [app].
      1: { exists [EvImport "torch"; EvImport "pymatgen.io.ase";
                   EvGetStructure atoms], a1, a2.
           split; [reflexivity | ]. split; [reflexivity | ]. eauto. }
      all: (split; [first [left; eexists; reflexivity | right; auto] | ]).
      all: same_trace; intros m st f I; in_cases I.
      all: inversion I; subst; auto.
    + intros s1 st s2 I1 I2. rewrite predict_gap_unfold, I1, I2, H.
      rewrite bind_run, ext_run.
      split.
      * destruct (w_predict_structure (_model self) st [n] (world s2))
          as [[t | e] w3]; cbv beta iota;
          [ | cbn [snd trace]; exists []; reflexivity].
        rewrite ext_run. cbn [world heap files trace].
        destruct (w_float t w3) as [[g | e] w4]; cbn [snd trace];
          rewrite <- app_assoc; eexists; reflexivity.
      * intros t w3 g w4 E1 E2. rewrite E1. cbv beta iota.
        rewrite ext_run. cbn [world heap files trace].
        rewrite E2, <- app_assoc. reflexivity.
    + intros (A1 & A2 & A3 & A4) [x Hx].
      unfold MatGLGapPredictor_predict_gap, ase_to_pymatgen, import.
      rewrite H. repeat run_step; cbn [fst]; eauto; try refute_always.
      all: congruence.
  - intros H. split; [ | split].
    + unfold MatGLGapPredictor_predict_gap, ase_to_pymatgen, import.
      rewrite H. repeat run_step; cbn [fst]; intros g Hg; discriminate Hg.
    + unfold MatGLGapPredictor_predict_gap, ase_to_pymatgen, import.
      rewrite H. repeat run_step; cbn [snd trace].
      all: rewrite <- ?app_assoc; cbn [app].
      all: same_trace; reflexivity.
    + intros s1 st s2 I1 I2. rewrite predict_gap_unfold, I1, I2, H.
      reflexivity.
Qed.

Lemma loads_app tr1 tr2 : loads (tr1 ++ tr2) = (loads tr1 + loads tr2)%nat.
Proof. unfold loads. rewrite List.filter_app, length_app. reflexivity. Qed.

Lemma loads_none tr :
  forallb (fun ev => negb (is_load ev)) tr = true -> loads tr = 0%nat.
Proof.
  unfold loads. induction tr as [ | ev tr IH]; cbn; [reflexivity | ].
  destruct (is_load ev); cbn; [discriminate | exact IH].
Qed.

Lemma predict_gap_call atoms xc s :
  match predict_gap atoms xc s with
  | (Ok g, s') =>
      exists m rest,
        trace s' = trace s
                   ++ [EvImport "matgl"; EvLoadModel gap_model_name] ++ rest /\
        forallb (fun ev => negb (is_load ev)) rest = true /\
        (exists w w', w_matgl_load_model gap_model_name w = (Returns m, w')) /\
        exists st f, In (EvPredictStructure m st f) rest
  | (Err e, s') => exists evs, trace s' = trace s ++ EvImport "matgl" :: evs
  end.
Proof.
  unfold predict_gap, MatGLGapPredictor_init, MatGLGapPredictor_predict_gap,
    ase_to_pymatgen, import, gap_model_name.
  repeat run_step.
  all: rewrite <- ?app_assoc; cbn [app].
  all: try (eexists; reflexivity).
  exists a0. eexists. split; [reflexivity | ]. split; [reflexivity | ].
  split; [eauto | ]. exists a3, [z]. cbn. auto.
Qed.

(** C10.  The free function [predict_gap] is the construction of a new
    [MatGLGapPredictor] followed by its [predict_gap] method.  Every call
    starts by importing matgl and, if it gets as far as returning, has
    loaded the band-gap model exactly once in that call and predicted with
    the handle that load returned: two calls in a row load twice. *)
Theorem predict_gap_reloads atoms xc s :
  predict_gap atoms xc s
  = bind MatGLGapPredictor_init
         (fun p => MatGLGapPredictor_predict_gap p atoms xc) s /\
  match predict_gap atoms xc s with
  | (Ok g, s') =>
      exists m rest,
        trace s' = trace s
                   ++ [EvImport "matgl"; EvLoadModel gap_model_name] ++ rest /\
        forallb (fun ev => negb (is_load ev)) rest = true /\
        (exists w w',
           w_matgl_load_model gap_model_name w = (Returns m, w')) /\
        exists st f, In (EvPredictStructure m st f) rest
  | (Err e, s') => exists evs, trace s' = trace s ++ EvImport "matgl" :: evs
  end /\
  (forall g1 s1 atoms' xc' g2 s2,
     predict_gap atoms xc s = (Ok g1, s1) ->
     predict_gap atoms' xc' s1 = (Ok g2, s2) ->
     loads (trace s2) = (loads (trace s) + 2)%nat).
Proof.
  split; [reflexivity | ]. split; [apply predict_gap_call | ].
  intros g1 s1 atoms' xc' g2 s2 E1 E2.
  pose proof (predict_gap_call atoms xc s) as C1.
  pose proof (predict_gap_call atoms' xc' s1) as C2.
  rewrite E1 in C1. rewrite E2 in C2.
  destruct C1 as (m1 & r1 & T1 & N1 & _).
  destruct C2 as (m2 & r2 & T2 & N2 & _).
  rewrite T2, T1, !loads_app, (loads_none _ N1), (loads_none _ N2).
  cbn. lia.
Qed.

End GapProofs.

Lemma mock_gap_libs_return : gap_libs_return (L := Mock.libs).
Proof.
  unfold gap_libs_return, always. cbn. unfold Mock.ok.
  repeat split; intros; eauto.
Qed.

(** C3 at the test double: "PBE" reaches the model with code 0 and "SCAN"
    with code 3, and each returns what the model predicted; "HSE" returns;
    "LDA" raises the lookup error. *)
Lemma predict_gap_encoding_witness :
  (exists s',
     MatGLGapPredictor_predict_gap (L := Mock.libs)
       (mkPredictor (L := Mock.libs) "m") 0%nat "PBE" Mock.s0
     = (Ok 0.5%float, s') /\
     trace s' = [EvImport (L := Mock.libs) "torch";
                 EvImport "pymatgen.io.ase";
                 EvGetStructure 0%nat;
                 EvPredictStructure (L := Mock.libs) "m" 12 [0];
                 EvFloat (L := Mock.libs) 0.5%float]) /\
  (exists s',
     MatGLGapPredictor_predict_gap (L := Mock.libs)
       (mkPredictor (L := Mock.libs) "m") 0%nat "SCAN" Mock.s0
     = (Ok 3.5%float, s') /\
     trace s' = [EvImport (L := Mock.libs) "torch";
                 EvImport "pymatgen.io.ase";
                 EvGetStructure 0%nat;
                 EvPredictStructure (L := Mock.libs) "m" 12 [3];
                 EvFloat (L := Mock.libs) 3.5%float]) /\
  (exists g,
     fst (MatGLGapPredictor_predict_gap (L := Mock.libs)
            (mkPredictor (L := Mock.libs) "m") 0%nat "HSE" Mock.s0)
     = Ok g) /\
  exists s2,
    MatGLGapPredictor_predict_gap (L := Mock.libs)
      (mkPredictor (L := Mock.libs) "m") 0%nat "LDA" Mock.s0
    = (Err (KeyError "LDA"), s2).
Proof.
  split; [ | split; [ | split]].
  - destruct (predict_gap_encoding (L := Mock.libs)
                (mkPredictor (L := Mock.libs) "m") 0%nat "PBE" Mock.s0)
      as (_ & H & _).
    destruct (H 0 eq_refl) as (_ & K & _).
    edestruct K as [_ R]; [reflexivity | reflexivity | ].
    eexists. split; [eapply R; reflexivity | reflexivity].
  - destruct (predict_gap_encoding (L := Mock.libs)
                (mkPredictor (L := Mock.libs) "m") 0%nat "SCAN" Mock.s0)
      as (_ & H & _).
    destruct (H 3 eq_refl) as (_ & K & _).
    edestruct K as [_ R]; [reflexivity | reflexivity | ].
    eexists. split; [eapply R; reflexivity | reflexivity].
  - destruct (predict_gap_encoding (L := Mock.libs)
                (mkPredictor (L := Mock.libs) "m") 0%nat "HSE" Mock.s0)
      as (_ & H & _).
    destruct (H 2 eq_refl) as (_ & _ & K).
    apply K; [exact mock_gap_libs_return | ].
    exists Mock.atoms0. reflexivity.
  - destruct (predict_gap_encoding (L := Mock.libs)
                (mkPredictor (L := Mock.libs) "m") 0%nat "LDA" Mock.s0)
      as (_ & _ & H).
    destruct (H eq_refl) as (_ & _ & K).
    eexists. eapply K; reflexivity.
Defined.

(** C10 at the test double: two calls, two loads. *)
Lemma predict_gap_reloads_witness :
  loads (trace (snd (predict_gap (L := Mock.libs) 0%nat "HSE"
                       (snd (predict_gap (L := Mock.libs) 0%nat "PBE"
                                         Mock.s0)))))
  = (loads (trace Mock.s0) + 2)%nat.
Proof.
  apply (proj2 (proj2 (predict_gap_reloads (L := Mock.libs) 0%nat "PBE"
                         Mock.s0))
           0.5%float
           (snd (predict_gap (L := Mock.libs) 0%nat "PBE" Mock.s0))
           0%nat "HSE" 3.5%float); vm_compute; reflexivity.
Defined.

(** ** Invariants of a run *)

Section Keeps.
Context {L : Libs}.

Lemma keeps_ret {A} I (v : A) (Q : A -> Prop) : Q v -> keeps I (ret v) Q.
Proof.
  intros H s Hs. cbn. split; [exact Hs | ].
  intros v' E. inversion E; subst; exact H.
Qed.

Lemma keeps_raise {A} I e (Q : A -> Prop) : keeps I (raise e) Q.
Proof. intros s Hs. cbn. split; [exact Hs | ]. intros v' E. discriminate E. Qed.

Lemma keeps_bind {A B} I (m : M A) (k : A -> M B) Q R :
  keeps I m Q -> (forall v, Q v -> keeps I (k v) R) -> keeps I (bind m k) R.
Proof.
  intros Hm Hk s Hs. rewrite bind_run.
  destruct (Hm s Hs) as [H1 H2].
  destruct (m s) as [[v | e] s1]; cbn [fst snd] in *.
  - apply (Hk v (H2 v eq_refl) s1 H1).
  - split; [exact H1 | ]. intros v E. discriminate E.
Qed.

Lemma keeps_weaken {A} I (m : M A) (Q Q' : A -> Prop) :
  keeps I m Q -> (forall v, Q v -> Q' v) -> keeps I m Q'.
Proof. intros H HQ s Hs. destruct (H s Hs) as [H1 H2]. split; auto. Qed.

Lemma keeps_ext {A} I ev (op : W -> reply lib_exn A * W) :
  call_stable I ev -> keeps I (ext ev op) (fun _ => True).
Proof.
  intros H s Hs. rewrite ext_run.
  destruct (op (world s)) as [[a | e] w]; cbn; split; auto.
Qed.

Lemma keeps_deref I a : keeps I (deref a) (fun _ => True).
Proof.
  intros s Hs. unfold deref. destruct (heap s !! a); cbn; split; auto.
Qed.

Lemma keeps_store I a x :
  write_stable I a -> keeps I (store a x) (fun _ => True).
Proof. intros H s Hs. cbn. split; auto. Qed.

Lemma fold_iterate_stable I a obs steps s :
  iterate_stable I a obs -> I s -> I (fold_left (iterate a obs) steps s).
Proof.
  intros H. revert s. induction steps as [ | x steps IH]; intros s Hs; cbn.
  - exact Hs.
  - apply IH, H, Hs.
Qed.

Lemma keeps_run I opt fmax :
  (forall steps,
     call_stable I (EvRun (opt_target opt) fmax (opt_observers opt) steps)) ->
  iterate_stable I (target_loc (opt_target opt)) (opt_observers opt) ->
  keeps I (run opt fmax) (fun _ => True).
Proof.
  intros Hc Hi s Hs. unfold run.
  destruct (heap s !! target_loc (opt_target opt)) as [x | ]; [ | cbn; auto].
  set (r := iterations (opt_target opt) x fmax (world s)).
  assert (I (fold_left
               (iterate (target_loc (opt_target opt)) (opt_observers opt))
               (fst (fst r))
               (log (EvRun (opt_target opt) fmax (opt_observers opt)
                           (fst (fst r)))
                    (with_world (snd r) s)))) as HI.
  { apply fold_iterate_stable; [exact Hi | ]. apply (Hc _ s (snd r) Hs). }
  destruct (snd (fst r)); cbn [fst snd]; split; auto.
Qed.

End Keeps.

(** ** What relax_with_ml can touch *)

Section RelaxKeeps.
Context {L : Libs}.

Lemma keeps_ret_any {A} I (v : A) : keeps I (ret v) (fun _ => True).
Proof. apply keeps_ret. exact Logic.I. Qed.

Lemma backend_relax_event ev : backend_event ev = true -> relax_event ev = true.
Proof. destruct ev; cbn; congruence. Qed.

Lemma init_calc_keeps I model_type model_path :
  (forall ev, backend_event ev = true -> call_stable I ev) ->
  keeps I (init_calc model_type model_path) (fun _ => True).
Proof.
  intros H. unfold init_calc, import.
  repeat match goal with
         | |- context [String.eqb ?a ?b] => destruct (String.eqb a b)
         | |- context [match ?o with Some _ => _ | None => _ end] => destruct o
         | |- keeps _ (bind _ _) _ => eapply keeps_bind; [ | intros ? _]
         | |- keeps _ (ext _ _) _ => apply keeps_ext, H; reflexivity
         | |- keeps _ (raise _) _ => apply keeps_raise
         end.
Qed.

Lemma copy_run a s :
  copy a s =
  match heap s !! a with
  | Some x =>
      (Ok (fresh (dom (heap s))),
       with_heap (<[fresh (dom (heap s)) := copy_val x]> (heap s)) s)
  | None => (Err BadRef, s)
  end.
Proof.
  unfold copy. rewrite bind_run, deref_run.
  destruct (heap s !! a); reflexivity.
Qed.

Ltac keeps_step H :=
  match goal with
  | |- keeps _ (bind _ _) _ => eapply keeps_bind; [ | intros ? ?]
  | |- keeps _ (ext _ _) _ => apply keeps_ext, H; reflexivity
  | |- keeps _ (deref _) _ => apply keeps_deref
  | |- keeps _ (store _ _) _ => apply keeps_store; assumption
  | |- keeps _ (raise _) _ => apply keeps_raise
  | |- keeps _ (ret _) _ => apply keeps_ret_any
  end.

(** The relaxation preserves every invariant that tolerates its library
    calls, the allocation of its private copy, and writes to that copy and
    to the trajectory file. *)
Lemma relax_with_ml_keeps I atoms calc o :
  (forall ev, relax_event ev = true -> call_stable I ev) ->
  (forall s x, I s ->
     I (with_heap (<[fresh (dom (heap s)) := x]> (heap s)) s) /\
     private_stable I (fresh (dom (heap s))) (traj_file o)) ->
  forall s, I s ->
    I (snd (relax_with_ml atoms calc o s)) /\
    forall c, fst (relax_with_ml atoms calc o s) = Ok c ->
              c = fresh (dom (heap s)) /\ is_Some (heap s !! atoms).
Proof.
  intros Hev Hcopy s Hs. unfold relax_with_ml.
  rewrite bind_run, copy_run.
  destruct (heap s !! atoms) as [x | ];
    [ | cbn; split; [exact Hs | intros c E; discriminate E]].
  destruct (Hcopy s (copy_val x) Hs) as (Hs1 & Hw & Hi0 & Hi1 & Htr).
  remember (fresh (dom (heap s))) as c eqn:Ec. clear Ec.
  match goal with
  | |- I (snd (?m ?s1)) /\ _ =>
      cut (keeps I m (fun v => v = c));
        [intros K; destruct (K s1 Hs1) as [K1 K2]; split;
           [exact K1 | intros v E; split; [exact (K2 v E) | eauto]] | ]
  end.
  eapply keeps_bind with (Q := fun _ => True).
  { unfold rattle_atoms. destruct (rattle o); repeat keeps_step Hev. }
  intros _ _.
  eapply keeps_bind with (Q := fun _ => True).
  { destruct calc; [apply init_calc_keeps | apply init_calc_keeps | ];
      auto using keeps_ret_any, backend_relax_event. }
  intros cobj _.
  eapply keeps_bind with (Q := fun _ => True).
  { unfold set_calculator. repeat keeps_step Hev. }
  intros _ _.
  eapply keeps_bind with (Q := fun _ => True).
  { unfold FixSymmetry, set_constraint.
    destruct (sym o); repeat keeps_step Hev. }
  intros _ _.
  eapply keeps_bind
    with (Q := fun opt => target_loc (opt_target opt) = c /\
                          opt_observers opt = []).
  { unfold UnitCellFilter, FIRE. destruct (relax_cell o).
    - eapply keeps_bind with (Q := fun t => target_loc t = c).
      { eapply keeps_bind; [keeps_step Hev | intros ? ?].
        apply keeps_ret. reflexivity. }
      intros ecf Hecf.
      eapply keeps_bind
        with (Q := fun opt => opt_target opt = ecf /\ opt_observers opt = []).
      { eapply keeps_bind; [keeps_step Hev | intros ? ?].
        apply keeps_ret. auto. }
      intros opt1 [Ht1 Ho1].
      eapply keeps_bind with (Q := fun _ => True).
      { apply keeps_run.
        - intros steps. apply Hev. reflexivity.
        - rewrite Ht1, Ho1, Hecf. exact Hi0. }
      intros _ _.
      eapply keeps_bind
        with (Q := fun opt => opt_target opt = ecf /\ opt_observers opt = []).
      { eapply keeps_bind; [keeps_step Hev | intros ? ?].
        apply keeps_ret. auto. }
      intros opt2 [Ht2 Ho2].
      eapply keeps_bind with (Q := fun _ => True).
      { apply keeps_run.
        - intros steps. apply Hev. reflexivity.
        - rewrite Ht2, Ho2, Hecf. exact Hi0. }
      intros _ _. apply keeps_ret. rewrite Ht2. auto.
    - eapply keeps_bind; [keeps_step Hev | intros ? ?].
      apply keeps_ret. auto. }
  intros opt [Ht Ho].
  eapply keeps_bind with (Q := fun t => t = mkTraj (traj_file o) c).
  { unfold Trajectory.
    eapply keeps_bind; [keeps_step Hev | intros ? ?].
    intros s' Hs'. cbn. split; [apply Htr, Hs' | ].
    intros t E. inversion E. reflexivity. }
  intros traj ->.
  eapply keeps_bind with (Q := fun _ => True).
  { apply keeps_run.
    - intros steps. apply Hev. reflexivity.
    - cbn. rewrite Ht, Ho. exact Hi1. }
  intros _ _. apply keeps_ret. reflexivity.
Qed.

(** Objects that exist when [relax_with_ml] is called are not written. *)
Lemma relax_with_ml_frame atoms calc o s a y :
  heap s !! a = Some y ->
  heap (snd (relax_with_ml atoms calc o s)) !! a = Some y /\
  forall c, fst (relax_with_ml atoms calc o s) = Ok c ->
            c = fresh (dom (heap s)) /\ is_Some (heap s !! atoms).
Proof.
  intros Ha.
  apply (relax_with_ml_keeps (fun s => heap s !! a = Some y));
    [ | | exact Ha].
  - intros ev _ s1 w H1. exact H1.
  - intros s1 x1 H1.
    assert (fresh (dom (heap s1)) <> a) as Hne.
    { intros E. apply (is_fresh (dom (heap s1))). rewrite E.
      apply elem_of_dom. eauto. }
    split; [cbn; rewrite lookup_insert_ne by exact Hne; exact H1 | ].
    unfold private_stable, write_stable, iterate_stable, truncate_stable.
    split; [ | split; [ | split]]; intros s2; intros; cbn;
      rewrite ?lookup_insert_ne by exact Hne; assumption.
Qed.

(** C2.  [relax_with_ml] leaves the caller's configuration object exactly
    as it was, positions and cell included, whatever the outcome of the
    call; so is every other object that existed before the call.  What it
    returns is a reference that did not exist before: the private copy. *)
Theorem relax_with_ml_original_untouched atoms calc o s :
  heap (snd (relax_with_ml atoms calc o s)) !! atoms = heap s !! atoms /\
  (forall a, is_Some (heap s !! a) ->
             heap (snd (relax_with_ml atoms calc o s)) !! a = heap s !! a) /\
  (forall c, fst (relax_with_ml atoms calc o s) = Ok c ->
             heap s !! c = None /\ c <> atoms).
Proof.
  assert (forall a, is_Some (heap s !! a) ->
            heap (snd (relax_with_ml atoms calc o s)) !! a = heap s !! a)
    as K'.
  { intros a [y Ha]. rewrite Ha.
    apply (relax_with_ml_frame atoms calc o s a y Ha). }
  split; [ | split; [exact K' | ]].
  - destruct (heap s !! atoms) as [x | ] eqn:Ha.
    + rewrite <- Ha. apply K'. rewrite Ha. eauto.
    + unfold relax_with_ml. rewrite bind_run, copy_run, Ha. exact Ha.
  - intros c E.
    destruct (heap s !! atoms) as [x | ] eqn:Ha.
    + destruct (relax_with_ml_frame atoms calc o s atoms x Ha) as [_ Kc].
      destruct (Kc c E) as [-> _].
      assert (fresh (dom (heap s)) ∉ dom (heap s)) as F by apply is_fresh.
      split.
      * apply not_elem_of_dom. exact F.
      * intros E'. apply F. rewrite E'. apply elem_of_dom. eauto.
    + unfold relax_with_ml in E. rewrite bind_run, copy_run, Ha in E.
      discriminate E.
Qed.

Lemma write_frame_other h f t p :
  p <> traj_path t -> write_frame h f t !! p = f !! p.
Proof.
  intros Hp. unfold write_frame. destruct (h !! traj_atoms t); [ | reflexivity].
  apply lookup_insert_ne. congruence.
Qed.

(** C7.  The [output_file] argument has no effect at all: the call behaves
    the same for every value of it.  The only path whose file can differ
    after the call is [traj_file]; in particular the file at
    [output_file] is left as it was unless it is the trajectory path. *)
Theorem relax_with_ml_output_file_unwritten atoms calc o s :
  (forall f, relax_with_ml atoms calc (set_output_file o f) s
             = relax_with_ml atoms calc o s) /\
  (forall p, p <> traj_file o ->
     files (snd (relax_with_ml atoms calc o s)) !! p = files s !! p) /\
  (output_file o <> traj_file o ->
     files (snd (relax_with_ml atoms calc o s)) !! output_file o
     = files s !! output_file o).
Proof.
  assert (forall p, p <> traj_file o ->
            files (snd (relax_with_ml atoms calc o s)) !! p = files s !! p)
    as K.
  { intros p Hp.
    apply (relax_with_ml_keeps (fun s' => files s' !! p = files s !! p));
      [ | | reflexivity].
    - intros ev _ s1 w H1. exact H1.
    - intros s1 x1 H1. split; [exact H1 | ].
      unfold private_stable, write_stable, iterate_stable, truncate_stable.
      split; [ | split; [ | split]]; intros s2; intros; cbn;
        rewrite ?write_frame_other by exact Hp;
        rewrite ?lookup_insert_ne by congruence; assumption. }
  split; [intros f; reflexivity | ].
  split; [exact K | apply K].
Qed.

End RelaxKeeps.

(** ** The successful path through relax_with_ml *)

(** Forward execution inside a hypothesis [H : m s = (Ok v, s')]. *)
Ltac exec_in H :=
  repeat first
    [ rewrite bind_run in H
    | rewrite ret_run in H
    | rewrite raise_run in H
    | match type of H with
      | context [ext ?ev ?op ?s] =>
          rewrite (ext_run ev op s) in H;
          let a := fresh "a" in
          let e := fresh "e" in
          let w := fresh "w" in
          let E := fresh "E" in
          destruct (op (world s)) as [[a | e] w] eqn:E;
          cbn [fst snd world heap files trace with_heap] in H;
          [ | discriminate H]
      | context [deref ?a ?s] =>
          rewrite (deref_run a s) in H;
          cbn [fst snd world heap files trace with_heap] in H;
          first
            [ rewrite lookup_insert_eq in H
            | match type of H with
              | context [match ?h !! a with _ => _ end] =>
                  let x := fresh "x" in
                  let E := fresh "E" in
                  destruct (h !! a) as [x | ] eqn:E;
                  [ | discriminate H]
              end ]
      end ].

Section RelaxPath.
Context {L : Libs}.

Lemma rattle_ok_inv c r s u s' :
  rattle_atoms c r s = (Ok u, s') ->
  exists y p,
    heap s !! c = Some y /\
    heap s' = <[c := set_positions p y]> (heap s) /\
    files s' = files s /\ trace s' = trace s ++ [EvRattle c r].
Proof.
  unfold rattle_atoms, store. intros H. exec_in H.
  inversion H; subst; clear H. cbn. eauto 10.
Qed.

Lemma set_calculator_ok_inv c k s u s' :
  set_calculator c k s = (Ok u, s') ->
  exists y,
    heap s !! c = Some y /\
    heap s' = <[c := set_calc k y]> (heap s) /\
    files s' = files s /\ trace s' = trace s.
Proof.
  unfold set_calculator, store. intros H. exec_in H.
  inversion H; subst; clear H. cbn. eauto 10.
Qed.

Lemma sym_ok_inv c s u s' :
  bind (FixSymmetry c) (fun k => set_constraint c k) s = (Ok u, s') ->
  exists y k p ce w w',
    heap s !! c = Some y /\
    w_FixSymmetry (positions y) (cell y) (symbols y) w
    = (Returns (k, p, ce), w') /\
    heap s' !! c
    = Some (set_constraint_val k (set_cell_positions (p, ce) y)) /\
    files s' = files s /\ trace s' = trace s ++ [EvFixSymmetry c].
Proof.
  unfold FixSymmetry, set_constraint, store. intros H. exec_in H.
  inversion H; subst; clear H. cbn.
  destruct a as [[k p] ce]. exists x, k, p, ce, (world s), w.
  rewrite lookup_insert_eq. auto.
Qed.

Lemma fold_iterate_trace c obs steps s :
  trace (fold_left (iterate c obs) steps s) = trace s.
Proof.
  revert s. induction steps as [ | x steps IH]; intros s; cbn;
    [reflexivity | ]. rewrite IH. reflexivity.
Qed.

Lemma last_nonempty {A} (l : list A) a d1 d2 :
  List.last (a :: l) d1 = List.last (a :: l) d2.
Proof.
  revert a. induction l as [ | b l IH]; intros a; [reflexivity | ].
  change (List.last (b :: l) d1 = List.last (b :: l) d2). apply IH.
Qed.

Lemma fold_iterate_heap c obs steps s y :
  heap s !! c = Some y ->
  heap (fold_left (iterate c obs) steps s) !! c = Some (List.last steps y).
Proof.
  revert s y. induction steps as [ | x steps IH]; intros s y Hy;
    [exact Hy | ].
  cbn [fold_left].
  rewrite (IH (iterate c obs s x) x) by (cbn; apply lookup_insert_eq).
  destruct steps as [ | a steps]; [reflexivity | ].
  f_equal. change (List.last (x :: a :: steps) y)
    with (List.last (a :: steps) y). apply last_nonempty.
Qed.

Lemma fold_iterate_files_unobserved c steps s :
  files (fold_left (iterate c []) steps s) = files s.
Proof.
  revert s. induction steps as [ | x steps IH]; intros s; cbn;
    [reflexivity | ]. rewrite IH. reflexivity.
Qed.

Lemma fold_iterate_files_recorded c path steps s l :
  files s !! path = Some (Frames l) ->
  files (fold_left (iterate c [mkTraj path c]) steps s) !! path
  = Some (Frames (l ++ steps)).
Proof.
  revert s l. induction steps as [ | x steps IH]; intros s l Hl.
  - cbn. rewrite app_nil_r. exact Hl.
  - cbn [fold_left].
    rewrite (IH (iterate c [mkTraj path c] s x) (l ++ [x])).
    + rewrite <- app_assoc. reflexivity.
    + cbn. unfold write_frame. cbn. rewrite lookup_insert_eq.
      rewrite lookup_insert_eq, Hl. reflexivity.
Qed.

Lemma iterations_cell a x fmax w :
  Forall (fun y => cell y = cell x)
         (fst (fst (iterations (OnAtoms a) x fmax w))).
Proof.
  cbn. apply List.Forall_forall. intros y Hy.
  apply in_map_iff in Hy. destruct Hy as (p & <- & _). reflexivity.
Qed.

Lemma run_ok_inv opt fmax s u s' :
  run opt fmax s = (Ok u, s') ->
  exists y steps w,
    heap s !! target_loc (opt_target opt) = Some y /\
    s' = fold_left
           (iterate (target_loc (opt_target opt)) (opt_observers opt)) steps
           (mkState w (heap s) (files s)
              (trace s ++ [EvRun (opt_target opt) fmax (opt_observers opt)
                                 steps])) /\
    (forall a, opt_target opt = OnAtoms a ->
               Forall (fun x => cell x = cell y) steps).
Proof.
  unfold run. intros H.
  destruct (heap s !! target_loc (opt_target opt)) as [y | ];
    [ | discriminate H].
  set (r := iterations (opt_target opt) y fmax (world s)) in *.
  exists y, (fst (fst r)), (snd r).
  split; [reflexivity | ]. split.
  - destruct (snd (fst r)); [discriminate H | ]. inversion H. reflexivity.
  - intros a Ha. subst r. rewrite Ha. apply iterations_cell.
Qed.

Lemma init_calc_frame model_type model_path s :
  heap (snd (init_calc model_type model_path s)) = heap s /\
  files (snd (init_calc model_type model_path s)) = files s /\
  exists evs,
    trace (snd (init_calc model_type model_path s)) = trace s ++ evs /\
    forallb setup_event evs = true.
Proof.
  apply (init_calc_keeps
           (fun s' => heap s' = heap s /\ files s' = files s /\
                      exists evs, trace s' = trace s ++ evs /\
                                  forallb setup_event evs = true)).
  - intros ev Hev s1 w (H1 & H2 & evs & H3 & H4). cbn.
    split; [exact H1 | ]. split; [exact H2 | ].
    exists (evs ++ [ev]). rewrite H3, app_assoc. split; [reflexivity | ].
    rewrite forallb_app, H4. cbn. destruct ev; cbn in *; congruence.
  - split; [reflexivity | ]. split; [reflexivity | ].
    exists []. rewrite app_nil_r. auto.
Qed.

Lemma phase_rattle c s0 s y evs (r : option num) u s' :
  at_copy c s0 s y evs ->
  match r with
  | Some r => rattle_atoms c r
  | None => ret tt
  end s = (Ok u, s') ->
  exists y' evs', at_copy c s0 s' y' evs' /\ cell y' = cell y /\
                  symbols y' = symbols y.
Proof.
  intros (H1 & H2 & H3 & H4) H. destruct r as [r | ].
  - apply rattle_ok_inv in H. destruct H as (y1 & p & E1 & E2 & E3 & E4).
    rewrite H1 in E1. inversion E1; subst y1.
    exists (set_positions p y), (evs ++ [EvRattle c r]).
    split; [ | split; reflexivity].
    unfold at_copy. rewrite E2, E3, E4, H3, lookup_insert_eq, app_assoc.
    rewrite forallb_app, H4. auto.
  - inversion H; subst. exists y, evs. unfold at_copy. auto.
Qed.

Lemma phase_calc c s0 s y evs calc mp k s' :
  at_copy c s0 s y evs ->
  match calc with
  | CalcTag tag => init_calc tag mp
  | CalcNone => init_calc "chgnet" None
  | CalcObj k => ret k
  end s = (Ok k, s') ->
  exists evs', at_copy c s0 s' y evs'.
Proof.
  intros (H1 & H2 & H3 & H4) H.
  assert (forall t p, init_calc t p s = (Ok k, s') ->
                      exists evs', at_copy c s0 s' y evs') as K.
  { intros t p E.
    destruct (init_calc_frame t p s) as (F1 & F2 & evs1 & F3 & F4).
    rewrite E in F1, F2, F3. cbn [snd] in *.
    exists (evs ++ evs1). unfold at_copy.
    rewrite F1, F2, F3, H3, app_assoc, forallb_app, H4, F4. auto. }
  destruct calc; eauto.
  inversion H; subst. exists evs. unfold at_copy. auto.
Qed.

Lemma phase_set_calculator c s0 s y evs k u s' :
  at_copy c s0 s y evs ->
  set_calculator c k s = (Ok u, s') ->
  at_copy c s0 s' (set_calc k y) evs.
Proof.
  intros (H1 & H2 & H3 & H4) H.
  apply set_calculator_ok_inv in H. destruct H as (y1 & E1 & E2 & E3 & E4).
  rewrite H1 in E1. inversion E1; subst y1.
  unfold at_copy. rewrite E2, E3, E4, lookup_insert_eq. auto.
Qed.

Lemma phase_sym c s0 s y evs (b : bool) u s' :
  at_copy c s0 s y evs ->
  (if b
   then bind (FixSymmetry c) (fun k => set_constraint c k)
   else ret tt) s = (Ok u, s') ->
  exists y' evs',
    at_copy c s0 s' y' evs' /\
    (b = false -> y' = y) /\
    (b = true ->
     exists k p ce w w',
       w_FixSymmetry (positions y) (cell y) (symbols y) w
       = (Returns (k, p, ce), w') /\ cell y' = ce).
Proof.
  intros (H1 & H2 & H3 & H4) H. destruct b.
  - apply sym_ok_inv in H.
    destruct H as (y1 & k & p & ce & w & w' & E1 & E2 & E3 & E4 & E5).
    rewrite H1 in E1. inversion E1; subst y1.
    eexists _, (evs ++ [EvFixSymmetry c]). split; [ | split].
    + unfold at_copy. rewrite E3, E4, E5, H3, app_assoc, forallb_app, H4.
      auto.
    + discriminate.
    + intros _. exists k, p, ce, w, w'. auto.
  - inversion H; subst. exists y, evs. unfold at_copy.
    split; [auto | ]. split; [reflexivity | discriminate].
Qed.

Lemma last_app_default {A} (l1 l2 : list A) d :
  List.last (l1 ++ l2) d = List.last l2 (List.last l1 d).
Proof.
  revert d. induction l1 as [ | a l1 IH]; intros d; [reflexivity | ].
  destruct l1 as [ | b l1].
  - cbn [app List.last]. destruct l2 as [ | c l2]; [reflexivity | ].
    apply last_nonempty.
  - change (List.last ((b :: l1) ++ l2) d
            = List.last l2 (List.last (b :: l1) d)).
    apply IH.
Qed.

(** The two passes through the cell filter. *)
Lemma cell_passes_ok_inv c cf kw fm s opt s' y :
  (ecf <- UnitCellFilter c cf kw ;;
   opt <- FIRE ecf ;;
   run opt (mul10 fm) ;;;
   opt <- FIRE ecf ;;
   run opt fm ;;;
   ret opt) s = (Ok opt, s') ->
  heap s !! c = Some y ->
  exists st1 st2,
    opt = mkOpt (OnCell c cf kw) [] /\
    heap s' !! c = Some (List.last (st1 ++ st2) y) /\
    files s' = files s /\
    trace s' = trace s ++
      [EvUnitCellFilter c cf kw;
       EvFIRE (OnCell c cf kw);
       EvRun (OnCell c cf kw) (mul10 fm) [] st1;
       EvFIRE (OnCell c cf kw);
       EvRun (OnCell c cf kw) fm [] st2].
Proof.
  intros H Hy. unfold UnitCellFilter, FIRE in H.
  exec_in H.
  match type of H with
  | context [run ?o ?f ?st] =>
      destruct (run o f st) as [[[] | e] s1] eqn:R1; [ | discriminate H]
  end.
  apply run_ok_inv in R1. destruct R1 as (y1 & st1 & wr1 & Ey1 & -> & _).
  cbn [heap target_loc opt_target opt_observers] in *.
  rewrite Hy in Ey1. inversion Ey1; subst y1; clear Ey1.
  exec_in H.
  match type of H with
  | context [run ?o ?f ?st] =>
      destruct (run o f st) as [[[] | e] s2] eqn:R2; [ | discriminate H]
  end.
  apply run_ok_inv in R2. destruct R2 as (y2 & st2 & wr2 & Ey2 & -> & _).
  cbn [heap target_loc opt_target opt_observers] in *.
  rewrite (fold_iterate_heap _ _ _ _ y) in Ey2 by exact Hy.
  inversion Ey2; subst y2; clear Ey2.
  exec_in H. inversion H; subst; clear H.
  exists st1, st2. split; [reflexivity | ].
  rewrite fold_iterate_trace, fold_iterate_files_unobserved. cbn.
  rewrite fold_iterate_trace, fold_iterate_files_unobserved. cbn.
  split; [ | split; [reflexivity | ]].
  - rewrite last_app_default.
    apply fold_iterate_heap. cbn. apply fold_iterate_heap. exact Hy.
  - rewrite <- !app_assoc. reflexivity.
Qed.

(** The recorded pass: open the trajectory, attach it, run. *)
Lemma recorded_pass_ok_inv c tgt path fm s c' s' y :
  (traj <- Trajectory path c ;;
   let opt := attach (mkOpt tgt []) traj in
   run opt fm ;;;
   ret c) s = (Ok c', s') ->
  target_loc tgt = c ->
  heap s !! c = Some y ->
  exists st,
    c' = c /\
    heap s' !! c = Some (List.last st y) /\
    files s' !! path = Some (Frames st) /\
    trace s' = trace s ++
      [EvTrajectory path c; EvRun tgt fm [mkTraj path c] st] /\
    (forall a, tgt = OnAtoms a -> Forall (fun x => cell x = cell y) st).
Proof.
  intros H Ht Hy. unfold Trajectory in H.
  exec_in H. cbn [attach opt_target opt_observers app] in H.
  match type of H with
  | context [run ?o ?f ?st] =>
      destruct (run o f st) as [[[] | e] s1] eqn:R1; [ | discriminate H]
  end.
  apply run_ok_inv in R1. destruct R1 as (y1 & st1 & wr1 & Ey1 & -> & Hc).
  cbn [heap files trace with_files attach opt_target opt_observers app]
    in *.
  rewrite Ht, Hy in Ey1. inversion Ey1; subst y1; clear Ey1.
  exec_in H. inversion H; subst c' s'; clear H.
  exists st1. split; [reflexivity | ].
  rewrite Ht, fold_iterate_trace. cbn.
  split; [apply fold_iterate_heap; exact Hy | ].
  split; [ | split; [rewrite <- !app_assoc; reflexivity | exact Hc]].
  rewrite (fold_iterate_files_recorded _ _ _ _ []); [reflexivity | ].
  cbn. apply lookup_insert_eq.
Qed.

(** A returning call of [relax_with_ml], taken apart: the copy [c] of the
    caller's [x], the calls [pre] made while setting it up, its state [y0]
    when the optimizer is built, and the passes. *)
Lemma relax_with_ml_ok_inv atoms calc o s c s' :
  relax_with_ml atoms calc o s = (Ok c, s') ->
  exists x y0 pre,
    heap s !! atoms = Some x /\
    c = fresh (dom (heap s)) /\
    forallb setup_event pre = true /\
    (sym o = false -> cell y0 = cell x) /\
    (sym o = true ->
     exists y k p ce w w',
       cell y = cell x /\
       w_FixSymmetry (positions y) (cell y) (symbols y) w
       = (Returns (k, p, ce), w') /\
       cell y0 = ce) /\
    if relax_cell o
    then
      exists st1 st2 st3,
        trace s' = trace s ++ pre ++
          [EvUnitCellFilter c (cell_factor o) (ucf_kwargs o);
           EvFIRE (OnCell c (cell_factor o) (ucf_kwargs o));
           EvRun (OnCell c (cell_factor o) (ucf_kwargs o))
                 (mul10 (fmax o)) [] st1;
           EvFIRE (OnCell c (cell_factor o) (ucf_kwargs o));
           EvRun (OnCell c (cell_factor o) (ucf_kwargs o))
                 (fmax o) [] st2;
           EvTrajectory (traj_file o) c;
           EvRun (OnCell c (cell_factor o) (ucf_kwargs o))
                 (fmax o) [mkTraj (traj_file o) c] st3] /\
        files s' !! traj_file o = Some (Frames st3) /\
        heap s' !! c = Some (List.last (st1 ++ st2 ++ st3) y0)
    else
      exists st,
        trace s' = trace s ++ pre ++
          [EvFIRE (OnAtoms c);
           EvTrajectory (traj_file o) c;
           EvRun (OnAtoms c) (fmax o) [mkTraj (traj_file o) c] st] /\
        files s' !! traj_file o = Some (Frames st) /\
        heap s' !! c = Some (List.last st y0) /\
        Forall (fun z => cell z = cell y0) st.
Proof.
  intros H. unfold relax_with_ml in H.
  apply bind_ok_inv in H. destruct H as (c0 & s1 & Hcopy & H).
  rewrite copy_run in Hcopy.
  destruct (heap s !! atoms) as [x | ] eqn:Hx; [ | discriminate Hcopy].
  inversion Hcopy; subst c0 s1; clear Hcopy.
  set (c1 := fresh (dom (heap s))) in *.
  assert (at_copy c1 s (with_heap (<[c1 := copy_val x]> (heap s)) s)
                  (copy_val x) []) as A1.
  { unfold at_copy. cbn. rewrite lookup_insert_eq, app_nil_r. auto. }
  apply bind_ok_inv in H. destruct H as (u2 & s2 & H2 & H).
  destruct (phase_rattle _ _ _ _ _ _ _ _ A1 H2) as (y2 & ev2 & A2 & C2 & _).
  apply bind_ok_inv in H. destruct H as (k & s3 & H3 & H).
  destruct (phase_calc _ _ _ _ _ _ _ _ _ A2 H3) as (ev3 & A3).
  apply bind_ok_inv in H. destruct H as (u4 & s4 & H4 & H).
  pose proof (phase_set_calculator _ _ _ _ _ _ _ _ A3 H4) as A4.
  apply bind_ok_inv in H. destruct H as (u5 & s5 & H5 & H).
  destruct (phase_sym _ _ _ _ _ _ _ _ A4 H5) as (y5 & ev5 & A5 & S0 & S1).
  destruct A5 as (Hy5 & Hf5 & Ht5 & Hp5).
  apply bind_ok_inv in H. destruct H as (opt & s6 & H6 & H).
  assert (c = c1) as ->.
  { apply bind_ok_inv in H. destruct H as (tr & s7 & _ & H).
    apply bind_ok_inv in H. destruct H as (u8 & s8 & _ & H).
    inversion H. reflexivity. }
  exists x, y5, ev5.
  split; [reflexivity | ]. split; [reflexivity | ].
  split; [exact Hp5 | ].
  split; [intros E; rewrite (S0 E); exact C2 | ].
  split.
  { intros E. destruct (S1 E) as (k' & p & ce & w & w' & F & G).
    exists (set_calc k y2), k', p, ce, w, w'. auto. }
  destruct (relax_cell o).
  - destruct (cell_passes_ok_inv _ _ _ _ _ _ _ _ H6 Hy5)
      as (st1 & st2 & -> & Hy6 & Hf6 & Ht6).
    destruct (recorded_pass_ok_inv _ _ _ _ _ _ _ _ H eq_refl Hy6)
      as (st3 & _ & Hy7 & Hf7 & Ht7 & _).
    exists st1, st2, st3.
    rewrite Ht7, Ht6, Ht5, <- !app_assoc. split; [reflexivity | ].
    split; [exact Hf7 | ].
    rewrite Hy7, app_assoc, <- last_app_default. reflexivity.
  - unfold FIRE in H6. exec_in H6. inversion H6; subst opt s6; clear H6.
    destruct (recorded_pass_ok_inv c1 (OnAtoms c1) _ _ _ _ _ y5 H eq_refl)
      as (st & _ & Hy7 & Hf7 & Ht7 & Hc7); [exact Hy5 | ].
    exists st. cbn [trace] in Ht7.
    rewrite Ht7, Ht5, <- !app_assoc. split; [reflexivity | ].
    split; [exact Hf7 | ]. split; [exact Hy7 | ].
    apply (Hc7 c1). reflexivity.
Qed.

End RelaxPath.

(** ** The relaxation schedule *)

Section RelaxClaims.
Context {L : Libs}.

Lemma steps_taken_app evs1 evs2 :
  steps_taken (evs1 ++ evs2) = steps_taken evs1 ++ steps_taken evs2.
Proof. unfold steps_taken. apply flat_map_app. Qed.

Lemma steps_taken_setup evs :
  forallb setup_event evs = true -> steps_taken evs = [].
Proof.
  induction evs as [ | ev evs IH]; [reflexivity | ].
  intros H. cbn [forallb] in H. apply andb_prop in H. destruct H as [H1 H2].
  change (ev :: evs) with ([ev] ++ evs).
  rewrite steps_taken_app, (IH H2). destruct ev; cbn in *; congruence.
Qed.

Lemma unobserved_setup evs :
  forallb setup_event evs = true -> unobserved evs.
Proof.
  intros H t f obs steps I.
  rewrite forallb_forall in H. apply H in I. discriminate I.
Qed.

Lemma last_Forall {A} (P : A -> Prop) l d :
  Forall P l -> P d -> P (List.last l d).
Proof.
  intros H. revert d. induction H as [ | a l Ha Hl IH]; intros d Hd;
    [exact Hd | ].
  destruct l as [ | b l]; [exact Ha | ].
  change (P (List.last (b :: l) d)). apply IH. exact Hd.
Qed.

Lemma mul10_ten_times x : ten_times x (mul10 x).
Proof. destruct x; cbn; [apply Z.mul_comm | reflexivity]. Qed.

(** C5.  A call with [relax_cell = true] that returns has, after setting
    up the private copy [c], built a [UnitCellFilter] on [c] with the given
    [cell_factor] and pass-through options, run a new FIRE optimizer on it
    to the coarse threshold, then run a new FIRE optimizer on it to [fmax];
    no optimizer ran before the first of these passes.  The coarse
    threshold is ten times [fmax]: 0.01 for the default 0.001. *)
Theorem relax_with_ml_two_phase atoms calc o s c s' :
  relax_cell o = true ->
  relax_with_ml atoms calc o s = (Ok c, s') ->
  heap s !! c = None /\
  exists coarse pre st1 st2 post,
    ten_times (fmax o) coarse /\
    (fmax o = Float 0.001%float -> coarse = Float 0.01%float) /\
    steps_taken pre = [] /\ unobserved pre /\
    trace s' = trace s ++ pre ++
      [EvUnitCellFilter c (cell_factor o) (ucf_kwargs o);
       EvFIRE (OnCell c (cell_factor o) (ucf_kwargs o));
       EvRun (OnCell c (cell_factor o) (ucf_kwargs o)) coarse [] st1;
       EvFIRE (OnCell c (cell_factor o) (ucf_kwargs o));
       EvRun (OnCell c (cell_factor o) (ucf_kwargs o)) (fmax o) [] st2]
      ++ post.
Proof.
  intros Hrc H. apply relax_with_ml_ok_inv in H.
  destruct H as (x & y0 & pre & Hx & -> & Hpre & _ & _ & H).
  rewrite Hrc in H. destruct H as (st1 & st2 & st3 & Ht & _ & _).
  split.
  { apply not_elem_of_dom, is_fresh. }
  exists (mul10 (fmax o)), pre, st1, st2.
  eexists. split; [apply mul10_ten_times | ].
  split; [intros ->; reflexivity | ].
  split; [apply steps_taken_setup, Hpre | ].
  split; [apply unobserved_setup, Hpre | ].
  rewrite Ht. reflexivity.
Qed.

(** C9, as amended.  A call with [relax_cell = false] that returns has
    built no cell filter and has run the optimizer on the copy itself,
    which moves positions only.  The caller's object is unchanged.  The
    returned copy has the caller's cell when [sym = false]; when
    [sym = true] its cell is the one the [FixSymmetry] constructor left
    when it refined the copy. *)
Theorem relax_with_ml_fixed_cell atoms calc o s c s' :
  relax_cell o = false ->
  relax_with_ml atoms calc o s = (Ok c, s') ->
  exists x y,
    heap s !! atoms = Some x /\
    heap s' !! atoms = Some x /\
    heap s' !! c = Some y /\
    (sym o = false -> cell y = cell x) /\
    (sym o = true ->
     exists y1 k p ce w w',
       cell y1 = cell x /\
       w_FixSymmetry (positions y1) (cell y1) (symbols y1) w
       = (Returns (k, p, ce), w') /\
       cell y = ce) /\
    forall t f obs steps,
      In (EvRun t f obs steps) (drop (length (trace s)) (trace s')) ->
      t = OnAtoms c.
Proof.
  intros Hrc H.
  pose proof (relax_with_ml_ok_inv _ _ _ _ _ _ H) as K.
  destruct K as (x & y0 & pre & Hx & -> & Hpre & S0 & S1 & K).
  rewrite Hrc in K. destruct K as (st & Ht & _ & Hy & Hc).
  assert (cell (List.last st y0) = cell y0) as Hl.
  { apply (last_Forall (fun z => cell z = cell y0)); [exact Hc | reflexivity]. }
  exists x, (List.last st y0).
  split; [exact Hx | ]. split.
  { pose proof (relax_with_ml_frame atoms calc o s atoms x Hx) as [F _].
    rewrite H in F. exact F. }
  split; [exact Hy | ].
  split; [intros E; rewrite Hl; apply S0, E | ].
  split.
  { intros E. destruct (S1 E) as (y1 & k & p & ce & w & w' & F1 & F2 & F3).
    exists y1, k, p, ce, w, w'. rewrite Hl. auto. }
  intros t f obs steps I. rewrite Ht, drop_app_length in I.
  apply in_app_or in I. destruct I as [I | I].
  - rewrite forallb_forall in Hpre. apply Hpre in I. discriminate I.
  - in_cases I. inversion I. reflexivity.
Qed.

End RelaxClaims.

(** ** The schedule at the test double *)

(** C5 at the test double: with the default threshold 0.001 the first
    pass runs to 0.01 and the second to 0.001. *)
Lemma relax_with_ml_two_phase_witness :
  heap Mock.s0 !! 1%nat = None /\
  exists pre st1 st2 post,
    steps_taken (L := Mock.libs) pre = [] /\
    unobserved (L := Mock.libs) pre /\
    trace (snd MockRuns.default_run) = trace Mock.s0 ++ pre ++
      [EvUnitCellFilter 1%nat (Int 1000) ∅;
       EvFIRE (OnCell 1%nat (Int 1000) ∅);
       EvRun (OnCell 1%nat (Int 1000) ∅) (Float 0.01%float) [] st1;
       EvFIRE (OnCell 1%nat (Int 1000) ∅);
       EvRun (OnCell 1%nat (Int 1000) ∅) (Float 0.001%float) [] st2]
      ++ post.
Proof.
  destruct (relax_with_ml_two_phase (L := Mock.libs) 0%nat
              (CalcObj (L := Mock.libs) "c") relax_defaults Mock.s0 1%nat
              (snd MockRuns.default_run))
    as (H0 & coarse & pre & st1 & st2 & post & _ & Hc & H1 & H2 & H3).
  - reflexivity.
  - vm_compute. reflexivity.
  - split; [exact H0 | ].
    exists pre, st1, st2, post. rewrite <- (Hc eq_refl).
    split; [exact H1 | ]. split; [exact H2 | exact H3].
Defined.

(** C6.  The default call ([relax_cell = true], trajectory at
    "relax.traj") on a configuration that still needs optimizer steps.
    The passes to [fmax * 10] and to [fmax] run with no observer attached
    and take one step each; only then is the trajectory opened and
    attached; the final pass, on the optimizer of the second pass, finds
    the configuration converged and reports nothing.  The call returns
    with an empty trajectory file although the optimizer took two steps:
    not every optimizer step is recorded. *)
Lemma relax_with_ml_unrecorded_steps :
  fst MockRuns.default_run = Ok 1%nat /\
  trace (snd MockRuns.default_run)
  = [EvFixSymmetry 1%nat;
     EvUnitCellFilter 1%nat (Int 1000) ∅;
     EvFIRE (OnCell 1%nat (Int 1000) ∅);
     EvRun (OnCell 1%nat (Int 1000) ∅) (Float 0.01%float) []
       [mkAtoms (L := Mock.libs) 6 18 "Si2" ["FixSymmetry"] (Some "c")];
     EvFIRE (OnCell 1%nat (Int 1000) ∅);
     EvRun (OnCell 1%nat (Int 1000) ∅) (Float 0.001%float) []
       [mkAtoms (L := Mock.libs) 7 28 "Si2" ["FixSymmetry"] (Some "c")];
     EvTrajectory "relax.traj" 1%nat;
     EvRun (OnCell 1%nat (Int 1000) ∅) (Float 0.001%float)
       [mkTraj "relax.traj" 1%nat] []] /\
  steps_taken (trace (snd MockRuns.default_run))
  = [mkAtoms (L := Mock.libs) 6 18 "Si2" ["FixSymmetry"] (Some "c");
     mkAtoms (L := Mock.libs) 7 28 "Si2" ["FixSymmetry"] (Some "c")] /\
  files (snd MockRuns.default_run) !! "relax.traj" = Some (Frames []).
Proof. vm_compute. repeat split. Qed.

(** C9 as the claim states it fails: with [relax_cell = false] and the
    default [sym = true] the returned copy's cell (8) is not the input's
    cell (7). *)
Lemma relax_with_ml_cell_refined :
  relax_cell MockRuns.fixed_cell_opts = false /\
  fst MockRuns.fixed_cell_run = Ok 1%nat /\
  @cell Mock.libs <$> heap Mock.s0 !! 0%nat = Some 7 /\
  @cell Mock.libs <$> heap (snd MockRuns.fixed_cell_run) !! 1%nat = Some 8.
Proof. vm_compute. repeat split. Qed.

(** C9 as amended, at the test double. *)
Lemma relax_with_ml_fixed_cell_witness :
  exists x y,
    heap Mock.s0 !! 0%nat = Some x /\
    heap (snd MockRuns.fixed_cell_run) !! 0%nat = Some x /\
    heap (snd MockRuns.fixed_cell_run) !! 1%nat = Some y /\
    (true = false -> cell y = cell x) /\
    (true = true ->
     exists y1 k p ce w w',
       cell y1 = cell x /\
       w_FixSymmetry (Libs := Mock.libs) (positions y1) (cell y1)
                     (symbols y1) w
       = (Returns (k, p, ce), w') /\
       cell y = ce) /\
    forall t f obs steps,
      In (EvRun t f obs steps)
         (drop (length (trace Mock.s0))
               (trace (snd MockRuns.fixed_cell_run))) ->
      t = OnAtoms 1%nat.
Proof.
  apply (relax_with_ml_fixed_cell (L := Mock.libs) 0%nat
           (CalcObj (L := Mock.libs) "c") MockRuns.fixed_cell_opts Mock.s0
           1%nat (snd MockRuns.fixed_cell_run)).
  - reflexivity.
  - vm_compute. reflexivity.
Defined.

(** C2 at the test double. *)
Lemma relax_with_ml_original_untouched_witness :
  heap (snd MockRuns.default_run) !! 0%nat = heap Mock.s0 !! 0%nat /\
  (heap Mock.s0 !! 1%nat = None /\ 1%nat <> 0%nat).
Proof.
  destruct (relax_with_ml_original_untouched (L := Mock.libs) 0%nat
              (CalcObj (L := Mock.libs) "c") relax_defaults Mock.s0)
    as (_ & H2 & H3).
  split.
  - apply H2. exists Mock.atoms0. reflexivity.
  - apply H3. vm_compute. reflexivity.
Defined.

(** C7 at the test double: the stale file at [output_file] is untouched. *)
Lemma relax_with_ml_output_file_unwritten_witness :
  files (snd MockRuns.default_run) !! "POSCAR_relax.vasp"
  = files Mock.s0 !! "POSCAR_relax.vasp".
Proof.
  apply (relax_with_ml_output_file_unwritten (L := Mock.libs) 0%nat
           (CalcObj (L := Mock.libs) "c") relax_defaults Mock.s0).
  discriminate.
Defined.

(** ** The phonon procedure *)

Section PhononClaims.
Context {L : Libs}.

Lemma dict_update_lookup (d kw : gmap string pyval) k :
  dict_update d kw !! k =
  match kw !! k with
  | Some v => Some v
  | None => d !! k
  end.
Proof.
  unfold dict_update.
  apply (map_fold_weak_ind
           (fun (r : gmap string pyval) (m : gmap string pyval) =>
              r !! k = match m !! k with
                       | Some v => Some v
                       | None => d !! k
                       end)).
  - rewrite lookup_empty. reflexivity.
  - intros i x m r Hi IH.
    destruct (decide (i = k)) as [-> | Hne].
    + rewrite !lookup_insert_eq. reflexivity.
    + rewrite !lookup_insert_ne by exact Hne. exact IH.
Qed.

Lemma phonon_calls_carry_call s0 d ev :
  (forall a c args, ev = EvCalculatePhonon a c args -> args = d) ->
  call_stable (phonon_calls_carry s0 d) ev.
Proof.
  intros Hev s w H a c args I. cbn in I.
  apply in_app_or in I. destruct I as [I | I]; [apply H, I | ].
  in_cases I. right. apply (Hev a c). auto.
Qed.

Lemma phonon_with_ml_carries atoms calc relax plot kn kv np fig kwargs s0 :
  keeps (phonon_calls_carry s0 (phon_args kwargs))
        (phonon_with_ml atoms calc relax plot kn kv np fig kwargs)
        (fun _ => True).
Proof.
  set (I := phonon_calls_carry s0 (phon_args kwargs)).
  assert (forall ev, relax_event ev = true -> call_stable I ev) as Hev.
  { intros ev E. apply phonon_calls_carry_call.
    intros a c args ->. discriminate E. }
  unfold phonon_with_ml.
  eapply keeps_bind with (Q := fun _ => True).
  { destruct calc; [apply init_calc_keeps | apply init_calc_keeps | ];
      auto using keeps_ret_any, backend_relax_event. }
  intros k _.
  eapply keeps_bind with (Q := fun _ => True).
  { destruct relax; [ | apply keeps_ret_any].
    intros s Hs.
    destruct (relax_with_ml_keeps I atoms (CalcObj k) relax_defaults Hev)
      with (s := s) as [K _]; [ | exact Hs | split; [exact K | auto]].
    intros s1 x1 H1. split; [exact H1 | ].
    unfold private_stable, write_stable, iterate_stable, truncate_stable.
    split; [ | split; [ | split]]; intros s2; intros; assumption. }
  intros a _.
  eapply keeps_bind with (Q := fun _ => True).
  { unfold calculate_phonon.
    eapply keeps_bind; [apply keeps_deref | intros x _].
    apply keeps_ext, phonon_calls_carry_call.
    intros a' c' args E. inversion E. reflexivity. }
  intros _ _. unfold import, plot_phonon.
  destruct plot; [ | apply keeps_ret_any].
  eapply keeps_bind; [ | intros ? _];
    apply keeps_ext, phonon_calls_carry_call; intros a' c' args E;
    discriminate E.
Qed.

Lemma setup_relax_event ev : setup_event ev = true -> relax_event ev = true.
Proof. destruct ev; cbn; congruence. Qed.

Lemma forallb_setup_relax evs :
  forallb setup_event evs = true -> forallb relax_event evs = true.
Proof.
  rewrite !forallb_forall. intros H ev I. apply setup_relax_event, H, I.
Qed.

Lemma relax_not_phonon_call evs :
  forallb relax_event evs = true ->
  forallb (fun ev => negb (is_phonon_call ev)) evs = true.
Proof.
  rewrite !forallb_forall. intros H ev I. apply H in I.
  destruct ev; cbn in *; congruence.
Qed.

(** A returning call has resolved the calculator, relaxed if asked to,
    called the phonon routine once, and plotted if asked to. *)
Lemma phonon_with_ml_ok_inv atoms calc relax plot kn kv np fig kwargs s u s' :
  phonon_with_ml atoms calc relax plot kn kv np fig kwargs s = (Ok u, s') ->
  exists pre a k post,
    trace s' = trace s ++ pre
               ++ EvCalculatePhonon a k (phon_args kwargs) :: post /\
    forallb relax_event pre = true /\
    post = (if plot
            then [EvImport "pyDFTutils.phonon.plotphonopy";
                  EvPlotPhonon kn kv np fig]
            else []).
Proof.
  intros H. unfold phonon_with_ml in H.
  apply bind_ok_inv in H. destruct H as (k & s1 & H1 & H).
  apply bind_ok_inv in H. destruct H as (a & s2 & H2 & H).
  apply bind_ok_inv in H. destruct H as ([] & s3 & H3 & H4).
  assert (exists evs1, trace s1 = trace s ++ evs1 /\
                       forallb relax_event evs1 = true) as (evs1 & T1 & P1).
  { destruct calc as [tag | | c].
    - destruct (init_calc_frame tag None s) as (_ & _ & evs & T & P).
      rewrite H1 in T. exists evs. split; [exact T | ].
      apply forallb_setup_relax, P.
    - destruct (init_calc_frame "chgnet" None s) as (_ & _ & evs & T & P).
      rewrite H1 in T. exists evs. split; [exact T | ].
      apply forallb_setup_relax, P.
    - inversion H1; subst. exists []. rewrite app_nil_r. auto. }
  assert (exists evs2, trace s2 = trace s1 ++ evs2 /\
                       forallb relax_event evs2 = true) as (evs2 & T2 & P2).
  { destruct relax.
    - apply relax_with_ml_ok_inv in H2.
      destruct H2 as (x & y0 & pre & _ & _ & Hpre & _ & _ & R).
      cbn [relax_cell relax_defaults] in R.
      destruct R as (st1 & st2 & st3 & Ht & _ & _).
      eexists. split; [exact Ht | ].
      rewrite forallb_app, (forallb_setup_relax _ Hpre). reflexivity.
    - inversion H2; subst. exists []. rewrite app_nil_r. auto. }
  unfold calculate_phonon in H3. exec_in H3. inversion H3; subst; clear H3.
  exists (evs1 ++ evs2), a, k.
  unfold import, plot_phonon in H4.
  destruct plot; exec_in H4; inversion H4; subst; clear H4; cbn [trace];
    eexists; (split; [ | split; [ | reflexivity]]);
    rewrite ?forallb_app, ?P1, ?P2; try reflexivity;
    rewrite T2, T1, <- !app_assoc; reflexivity.
Qed.

(** C4.  The dictionary handed to the phonon routine is the defaults
    overwritten key by key with the caller's overrides: a key the caller
    gives maps to the caller's value, whatever the default was, and every
    other key keeps its default.  So a single override leaves all other
    defaults in place; [distance=0.02] leaves [symprec=1e-3].  Every call
    of the phonon routine made by [phonon_with_ml] carries exactly this
    dictionary, and a call of [phonon_with_ml] that returns has called the
    phonon routine exactly once, with it. *)
Theorem phon_args_shallow_merge kwargs :
  (forall k, phon_args kwargs !! k =
             match kwargs !! k with
             | Some v => Some v
             | None => phon_defaults !! k
             end) /\
  (forall k v, kwargs = {[k := v]} ->
     phon_args kwargs !! k = Some v /\
     forall k', k' <> k -> phon_args kwargs !! k' = phon_defaults !! k') /\
  (phon_args {["distance" := PyFloat 0.02%float]} !! "distance"
   = Some (PyFloat 0.02%float) /\
   phon_args {["distance" := PyFloat 0.02%float]} !! "symprec"
   = Some (PyFloat 1e-3%float)) /\
  (forall atoms calc relax plot kn kv np fig s a c args,
     In (EvCalculatePhonon a c args)
        (trace (snd (phonon_with_ml atoms calc relax plot kn kv np fig
                                    kwargs s))) ->
     In (EvCalculatePhonon a c args) (trace s) \/ args = phon_args kwargs) /\
  (forall atoms calc relax plot kn kv np fig s s',
     phonon_with_ml atoms calc relax plot kn kv np fig kwargs s
     = (Ok tt, s') ->
     exists pre a c post,
       trace s' = trace s ++ pre
                  ++ EvCalculatePhonon a c (phon_args kwargs) :: post /\
       forallb (fun ev => negb (is_phonon_call ev)) (pre ++ post) = true).
Proof.
  split; [intros k; apply dict_update_lookup | ].
  split.
  { intros k v ->. unfold phon_args. split.
    - rewrite dict_update_lookup, lookup_singleton_eq. reflexivity.
    - intros k' Hne. rewrite dict_update_lookup, lookup_singleton_ne by auto.
      reflexivity. }
  split.
  { unfold phon_args. rewrite !dict_update_lookup, lookup_singleton_eq.
    rewrite lookup_singleton_ne by discriminate.
    split; reflexivity. }
  split.
  { intros atoms calc relax plot kn kv np fig s a c args.
    apply (phonon_with_ml_carries atoms calc relax plot kn kv np fig kwargs s s).
    intros a' c' args' I. left. exact I. }
  intros atoms calc relax plot kn kv np fig s s' H.
  apply phonon_with_ml_ok_inv in H.
  destruct H as (pre & a & k & post & T & P & ->).
  exists pre, a, k. eexists. split; [exact T | ].
  rewrite forallb_app, (relax_not_phonon_call _ P).
  destruct plot; reflexivity.
Qed.

(** C8.  With [relax = true], [phonon_with_ml] first resolves the
    calculator, then runs [relax_with_ml] on the input with that calculator
    and the default settings.  If either fails the failure is the result
    and the phonon routine is not reached.  Otherwise the calls made so far
    are calls of the selector and of the relaxation, and the very next call
    is the phonon routine on the configuration the relaxation returned,
    with the resolved calculator and the merged dictionary. *)
Theorem phonon_with_ml_relaxes_first atoms calc plot kn kv np fig kwargs s :
  match
    match calc with
    | CalcTag tag => init_calc tag None
    | CalcNone => init_calc "chgnet" None
    | CalcObj k => ret k
    end s
  with
  | (Err e, s1) =>
      phonon_with_ml atoms calc true plot kn kv np fig kwargs s = (Err e, s1)
  | (Ok k, s1) =>
      match relax_with_ml atoms (CalcObj k) relax_defaults s1 with
      | (Err e, s2) =>
          phonon_with_ml atoms calc true plot kn kv np fig kwargs s
          = (Err e, s2)
      | (Ok a', s2) =>
          exists evs post,
            trace s2 = trace s ++ evs /\
            forallb relax_event evs = true /\
            trace (snd (phonon_with_ml atoms calc true plot kn kv np fig
                                       kwargs s))
            = trace s2 ++ EvCalculatePhonon a' k (phon_args kwargs) :: post
      end
  end.
Proof.
  unfold phonon_with_ml. rewrite bind_run.
  match goal with
  | |- match ?m s with _ => _ end =>
      assert (exists evs0, trace (snd (m s)) = trace s ++ evs0 /\
                           forallb setup_event evs0 = true) as T0;
        [ | destruct (m s) as [[k | e] s1]; [ | reflexivity]]
  end.
  { destruct calc;
      [apply init_calc_frame | apply init_calc_frame
       | exists []; cbn; rewrite app_nil_r; auto]. }
  destruct T0 as (evs0 & T0 & P0). cbn [snd] in T0.
  rewrite bind_run.
  destruct (relax_with_ml atoms (CalcObj k) relax_defaults s1)
    as [[a' | e] s2] eqn:R; [ | reflexivity].
  apply relax_with_ml_ok_inv in R.
  destruct R as (x & y0 & pre & _ & _ & Hpre & _ & _ & R).
  cbn [relax_cell relax_defaults] in R.
  destruct R as (st1 & st2 & st3 & Ht & _ & Hy).
  eexists (evs0 ++ pre ++ _).
  unfold calculate_phonon. rewrite !bind_run, deref_run, Hy, ext_run.
  cbn [world heap files trace].
  match goal with
  | |- context [w_calculate_phonon ?p ?c ?sp ?k ?d ?w] =>
      destruct (w_calculate_phonon p c sp k d w) as [[u | e] w1]
  end.
  - unfold import, plot_phonon. destruct plot.
    + repeat run_one; cbn [snd trace]; eexists;
        (split; [rewrite Ht, T0, <- app_assoc; reflexivity | ]);
        (split; [ | rewrite <- ?app_assoc; reflexivity]);
        rewrite !forallb_app, (forallb_setup_relax _ P0),
          (forallb_setup_relax _ Hpre); reflexivity.
    + rewrite ret_run. cbn [snd trace]. exists [].
      split; [rewrite Ht, T0, <- app_assoc; reflexivity | ].
      split; [ | reflexivity].
      rewrite !forallb_app, (forallb_setup_relax _ P0),
        (forallb_setup_relax _ Hpre). reflexivity.
  - cbn [snd trace]. exists [].
    split; [rewrite Ht, T0, <- app_assoc; reflexivity | ].
    split; [ | reflexivity].
    rewrite !forallb_app, (forallb_setup_relax _ P0),
      (forallb_setup_relax _ Hpre). reflexivity.
Qed.

End PhononClaims.

(** C4 at the test double: a call overriding [distance] hands the phonon
    routine a dictionary with the new [distance] and the default
    [symprec], once. *)
Lemma phon_args_shallow_merge_witness :
  exists pre a c d post,
    trace (snd (phonon_with_ml (L := Mock.libs) 0%nat
                  (CalcObj (L := Mock.libs) "c") false false PyNone PyNone
                  (PyInt 100) "phonon.pdf"
                  {["distance" := PyFloat 0.02%float]} Mock.s0))
    = trace Mock.s0 ++ pre ++ EvCalculatePhonon a c d :: post /\
    forallb (fun ev => negb (is_phonon_call ev)) (pre ++ post) = true /\
    d !! "distance" = Some (PyFloat 0.02%float) /\
    d !! "symprec" = Some (PyFloat 1e-3%float) /\
    d !! "symprec" = phon_defaults (L := Mock.libs) !! "symprec".
Proof.
  destruct (phon_args_shallow_merge (L := Mock.libs)
              {["distance" := PyFloat 0.02%float]})
    as (_ & H2 & [H3 H4] & _ & H5).
  destruct (H5 0%nat (CalcObj (L := Mock.libs) "c") false false PyNone PyNone
              (PyInt 100) "phonon.pdf" Mock.s0
              (snd (phonon_with_ml (L := Mock.libs) 0%nat
                      (CalcObj (L := Mock.libs) "c") false false PyNone
                      PyNone (PyInt 100) "phonon.pdf"
                      {["distance" := PyFloat 0.02%float]} Mock.s0)))
    as (pre & a & c & post & T & P).
  { vm_compute. reflexivity. }
  exists pre, a, c,
    (phon_args (L := Mock.libs) {["distance" := PyFloat 0.02%float]}), post.
  split; [exact T | ]. split; [exact P | ].
  split; [exact H3 | ]. split; [exact H4 | ].
  apply (H2 "distance" (PyFloat 0.02%float) eq_refl). discriminate.
Defined.

(** * Further properties of the module *)

(** ** Classes of calls *)

Section CallClasses.
Context {L : Libs}.

Lemma all_calls_refl P s : all_calls P s s.
Proof. exists []. rewrite app_nil_r. auto. Qed.

Lemma all_calls_call P s0 ev :
  P ev = true -> call_stable (all_calls P s0) ev.
Proof.
  intros Hev s w (evs & H1 & H2). exists (evs ++ [ev]). cbn.
  rewrite H1, app_assoc, forallb_app, H2. cbn. rewrite Hev. auto.
Qed.

Lemma all_calls_private P s0 c path :
  private_stable (all_calls P s0) c path.
Proof.
  unfold private_stable, write_stable, iterate_stable, truncate_stable.
  split; [ | split; [ | split]]; intros s; intros; assumption.
Qed.

Lemma all_calls_weaken (P Q : event -> bool) s0 s :
  (forall ev, P ev = true -> Q ev = true) ->
  all_calls P s0 s -> all_calls Q s0 s.
Proof.
  intros H (evs & H1 & H2). exists evs. split; [exact H1 | ].
  rewrite forallb_forall in *. auto.
Qed.

Lemma init_calc_keeps_selector I model_type model_path :
  (forall ev, selector_event ev = true -> call_stable I ev) ->
  keeps I (init_calc model_type model_path) (fun _ => True).
Proof.
  intros H. unfold init_calc, import.
  repeat match goal with
         | |- context [String.eqb ?a ?b] => destruct (String.eqb a b)
         | |- context [match ?o with Some _ => _ | None => _ end] => destruct o
         | |- keeps _ (bind _ _) _ => eapply keeps_bind; [ | intros ? _]
         | |- keeps _ (ext _ _) _ => apply keeps_ext, H; reflexivity
         | |- keeps _ (raise _) _ => apply keeps_raise
         end.
Qed.

Lemma init_calc_touches_selector model_type model_path s :
  heap (snd (init_calc model_type model_path s)) = heap s /\
  files (snd (init_calc model_type model_path s)) = files s /\
  all_calls selector_event s (snd (init_calc model_type model_path s)).
Proof.
  apply (init_calc_keeps_selector
           (fun s' => heap s' = heap s /\ files s' = files s /\
                      all_calls selector_event s s')).
  - intros ev Hev s1 w (H1 & H2 & H3). cbn.
    split; [exact H1 | ]. split; [exact H2 | ].
    apply (all_calls_call _ _ _ Hev s1 w H3).
  - split; [reflexivity | ]. split; [reflexivity | apply all_calls_refl].
Qed.

(** X1.  Whatever its outcome, the only calls [init_calc] makes are
    imports of the five backend modules, model loads and calculator
    constructors: it imports no other module and calls neither ASE nor the
    phonon, plotting and band-gap routines. *)
Theorem init_calc_only_selector_calls model_type model_path s :
  all_calls selector_event s (snd (init_calc model_type model_path s)).
Proof. apply init_calc_touches_selector. Qed.

Lemma lower_ascii_idempotent c : lower_ascii (lower_ascii c) = lower_ascii c.
Proof. destruct c as [[] [] [] [] [] [] [] []]; reflexivity. Qed.

Lemma lower_idempotent t : lower (lower t) = lower t.
Proof.
  induction t as [ | c t IH]; [reflexivity | ].
  cbn. rewrite lower_ascii_idempotent, IH. reflexivity.
Qed.

Lemma init_calc_by_lowered t1 t2 model_path :
  lower t1 = lower t2 -> init_calc t1 model_path = init_calc t2 model_path.
Proof. intros H. unfold init_calc. rewrite H. reflexivity. Qed.

(** X2.  The selector depends on its tag only through [lower]: lowering is
    idempotent, a tag and its lowered form give the same run, and so do
    any two tags that differ only in letter case. *)
Theorem init_calc_case_insensitive t1 model_path :
  lower (lower t1) = lower t1 /\
  init_calc (lower t1) model_path = init_calc t1 model_path /\
  (forall t2, lower t1 = lower t2 ->
              init_calc t1 model_path = init_calc t2 model_path).
Proof.
  split; [apply lower_idempotent | ].
  split; [apply init_calc_by_lowered, lower_idempotent | ].
  intros t2. apply init_calc_by_lowered.
Qed.

(** X3.  How the selector uses [model_path].  For the tags "matgl" and
    "chgnet" it is ignored.  For "m3gnet" a returning call has loaded the
    bundled network when no path is given and the directory at the path
    otherwise.  For "deepmd" the path is handed to the [DP] constructor as
    it is, also when it is absent. *)
Theorem init_calc_model_path model_type model_path s :
  (lower model_type = "matgl" \/ lower model_type = "chgnet" ->
   init_calc model_type model_path s = init_calc model_type None s) /\
  (lower model_type = "m3gnet" ->
   forall c s', init_calc model_type model_path s = (Ok c, s') ->
     exists net pot,
       trace s' = trace s ++
         [EvImport "m3gnet.models"; EvImport "m3gnet.models";
          match model_path with
          | Some dir => EvM3GNetFromDir dir
          | None => EvM3GNetLoad
          end;
          EvPotential net; EvM3gnetCalc pot true]) /\
  (lower model_type = "deepmd" ->
   forall c s', init_calc model_type model_path s = (Ok c, s') ->
     trace s' = trace s ++ [EvImport "deepmd.calculator"; EvDP model_path]).
Proof.
  split; [ | split].
  - intros [H | H]; unfold init_calc; rewrite H; reflexivity.
  - intros H c s' E. unfold init_calc, import in E. rewrite H in E.
    cbn [String.eqb Ascii.eqb Bool.eqb] in E.
    destruct model_path as [dir | ]; exec_in E; inversion E; subst;
      cbn [trace]; rewrite <- !app_assoc; eauto.
  - intros H c s' E. unfold init_calc, import in E. rewrite H in E.
    cbn [String.eqb Ascii.eqb Bool.eqb] in E.
    exec_in E. inversion E; subst. cbn [trace].
    rewrite <- !app_assoc. reflexivity.
Qed.

End CallClasses.

(** X2 at the test double. *)
Lemma init_calc_case_insensitive_witness :
  init_calc (L := Mock.libs) "MatGL" None = init_calc "matgl" None.
Proof.
  apply (proj2 (proj2 (init_calc_case_insensitive (L := Mock.libs)
                         "MatGL" None))).
  reflexivity.
Defined.

(** X3 at the test double: "DeepMD" without a path. *)
Lemma init_calc_model_path_witness :
  trace (snd (init_calc (L := Mock.libs) "DeepMD" None Mock.s0))
  = trace Mock.s0 ++ [EvImport "deepmd.calculator"; EvDP None].
Proof.
  apply (proj2 (proj2 (init_calc_model_path (L := Mock.libs) "DeepMD" None
                         Mock.s0))
           eq_refl "DP").
  reflexivity.
Defined.

(** ** Unrecognised backend tags *)

Section UnknownTag.
Context {L : Libs}.

(** X4.  With a tag the selector does not recognise, [relax_with_ml] never
    returns.  By then it has copied the configuration and, if asked to,
    perturbed the copy; it has made no other call, so no constraint,
    optimizer or trajectory exists and no file has changed.  Without a
    perturbation the result is the selector's [ValueError], raised in the
    caller's state extended by the copy. *)
Theorem relax_with_ml_unknown_tag atoms tag o s :
  ~ In (lower tag) backend_tags ->
  (forall c, fst (relax_with_ml atoms (CalcTag tag) o s) <> Ok c) /\
  files (snd (relax_with_ml atoms (CalcTag tag) o s)) = files s /\
  all_calls is_rattle s (snd (relax_with_ml atoms (CalcTag tag) o s)) /\
  (forall x, heap s !! atoms = Some x -> rattle o = None ->
     relax_with_ml atoms (CalcTag tag) o s
     = (Err (ValueError EmptyString),
        with_heap (<[fresh (dom (heap s)) := copy_val x]> (heap s)) s)).
Proof.
  intros Htag. unfold relax_with_ml.
  rewrite bind_run, copy_run.
  destruct (heap s !! atoms) as [x | ] eqn:Hx.
  - rewrite bind_run. unfold rattle_atoms, store.
    destruct (rattle o) as [r | ].
    + repeat run_step; cbn [heap with_heap] in *;
        rewrite ?lookup_insert_eq in *; try discriminate;
        rewrite ?bind_run, ?init_calc_unknown by exact Htag;
        cbn [fst snd files trace with_heap].
      all: (split; [intros c Ec; discriminate Ec | ]).
      all: (split; [reflexivity | ]).
      all: (split; [ | intros x' _ Er; discriminate Er]).
      all: exists [EvRattle (fresh (dom (heap s))) r]; auto.
    + rewrite ret_run, bind_run, init_calc_unknown by exact Htag.
      cbn [fst snd files trace with_heap].
      split; [intros c E; discriminate E | ].
      split; [reflexivity | ].
      split; [apply (all_calls_refl is_rattle s) | ].
      intros x' E _. inversion E. reflexivity.
  - cbn [fst snd]. split; [intros c E; discriminate E | ].
    split; [reflexivity | ].
    split; [apply all_calls_refl | intros x' E; discriminate E].
Qed.

(** X5.  With a tag the selector does not recognise, [phonon_with_ml]
    raises the selector's [ValueError] at once: the state is the caller's,
    so nothing was copied, relaxed, computed or plotted. *)
Theorem phonon_with_ml_unknown_tag atoms tag relax plot kn kv np fig kwargs s :
  ~ In (lower tag) backend_tags ->
  phonon_with_ml atoms (CalcTag tag) relax plot kn kv np fig kwargs s
  = (Err (ValueError EmptyString), s).
Proof.
  intros Htag. unfold phonon_with_ml.
  rewrite bind_run, init_calc_unknown by exact Htag. reflexivity.
Qed.

End UnknownTag.

(** ** The stages of relax_with_ml *)

(** One structural step of a [keeps] proof; [H] gives stability under
    the calls of some class. *)
Ltac keeps_call H :=
  match goal with
  | |- keeps _ (bind _ _) _ => eapply keeps_bind; [ | intros ? ?]
  | |- keeps _ (ext _ _) _ => apply keeps_ext, H; reflexivity
  | |- keeps _ (deref _) _ => apply keeps_deref
  | |- keeps _ (store _ _) _ => apply keeps_store; assumption
  | |- keeps _ (raise _) _ => apply keeps_raise
  | |- keeps _ (ret _) _ => apply keeps_ret_any
  end.

Section RelaxStages.
Context {L : Libs}.

(** The relaxation preserves an invariant that tolerates the calls into
    ASE, the calculator stage as it stands for this [calc], the allocation
    of the private copy, and writes to the copy and to the trajectory. *)
Lemma relax_with_ml_keeps_stages I atoms calc o :
  (forall ev, ase_event ev = true -> call_stable I ev) ->
  keeps I (resolve calc (model_path o)) (fun _ => True) ->
  (forall s x, I s ->
     I (with_heap (<[fresh (dom (heap s)) := x]> (heap s)) s) /\
     private_stable I (fresh (dom (heap s))) (traj_file o)) ->
  forall s, I s ->
    I (snd (relax_with_ml atoms calc o s)) /\
    forall c, fst (relax_with_ml atoms calc o s) = Ok c ->
              c = fresh (dom (heap s)) /\ is_Some (heap s !! atoms).
Proof.
  intros Hev Hcalc Hcopy s Hs. unfold relax_with_ml.
  rewrite bind_run, copy_run.
  destruct (heap s !! atoms) as [x | ];
    [ | cbn; split; [exact Hs | intros c E; discriminate E]].
  destruct (Hcopy s (copy_val x) Hs) as (Hs1 & Hw & Hi0 & Hi1 & Htr).
  remember (fresh (dom (heap s))) as c eqn:Ec. clear Ec.
  match goal with
  | |- I (snd (?m ?s1)) /\ _ =>
      cut (keeps I m (fun v => v = c));
        [intros K; destruct (K s1 Hs1) as [K1 K2]; split;
           [exact K1 | intros v E; split; [exact (K2 v E) | eauto]] | ]
  end.
  eapply keeps_bind with (Q := fun _ => True).
  { unfold rattle_atoms. destruct (rattle o); repeat keeps_call Hev. }
  intros _ _.
  eapply keeps_bind with (Q := fun _ => True).
  { exact Hcalc. }
  intros cobj _.
  eapply keeps_bind with (Q := fun _ => True).
  { unfold set_calculator. repeat keeps_call Hev. }
  intros _ _.
  eapply keeps_bind with (Q := fun _ => True).
  { unfold FixSymmetry, set_constraint.
    destruct (sym o); repeat keeps_call Hev. }
  intros _ _.
  eapply keeps_bind
    with (Q := fun opt => target_loc (opt_target opt) = c /\
                          opt_observers opt = []).
  { unfold UnitCellFilter, FIRE. destruct (relax_cell o).
    - eapply keeps_bind with (Q := fun t => target_loc t = c).
      { eapply keeps_bind; [keeps_call Hev | intros ? ?].
        apply keeps_ret. reflexivity. }
      intros ecf Hecf.
      eapply keeps_bind
        with (Q := fun opt => opt_target opt = ecf /\ opt_observers opt = []).
      { eapply keeps_bind; [keeps_call Hev | intros ? ?].
        apply keeps_ret. auto. }
      intros opt1 [Ht1 Ho1].
      eapply keeps_bind with (Q := fun _ => True).
      { apply keeps_run.
        - intros steps. apply Hev. reflexivity.
        - rewrite Ht1, Ho1, Hecf. exact Hi0. }
      intros _ _.
      eapply keeps_bind
        with (Q := fun opt => opt_target opt = ecf /\ opt_observers opt = []).
      { eapply keeps_bind; [keeps_call Hev | intros ? ?].
        apply keeps_ret. auto. }
      intros opt2 [Ht2 Ho2].
      eapply keeps_bind with (Q := fun _ => True).
      { apply keeps_run.
        - intros steps. apply Hev. reflexivity.
        - rewrite Ht2, Ho2, Hecf. exact Hi0. }
      intros _ _. apply keeps_ret. rewrite Ht2. auto.
    - eapply keeps_bind; [keeps_call Hev | intros ? ?].
      apply keeps_ret. auto. }
  intros opt [Ht Ho].
  eapply keeps_bind with (Q := fun t => t = mkTraj (traj_file o) c).
  { unfold Trajectory.
    eapply keeps_bind; [keeps_call Hev | intros ? ?].
    intros s' Hs'. cbn. split; [apply Htr, Hs' | ].
    intros t E. inversion E. reflexivity. }
  intros traj ->.
  eapply keeps_bind with (Q := fun _ => True).
  { apply keeps_run.
    - intros steps. apply Hev. reflexivity.
    - cbn. rewrite Ht, Ho. exact Hi1. }
  intros _ _. apply keeps_ret. reflexivity.
Qed.

Lemma relax_with_ml_ready_calls atoms k o s :
  all_calls ase_event s (snd (relax_with_ml atoms (CalcObj k) o s)).
Proof.
  apply (relax_with_ml_keeps_stages (all_calls ase_event s)).
  - intros ev Hev. apply all_calls_call, Hev.
  - apply keeps_ret_any.
  - intros s1 x1 H1. split; [exact H1 | apply all_calls_private].
  - apply all_calls_refl.
Qed.

(** X6.  Given a ready calculator, [relax_with_ml] calls only into ASE,
    whatever the outcome: it imports no backend, loads no model and builds
    no calculator.  [model_path] has no effect unless [calc] is a tag: the
    run is the same for every value of it when [calc] is a calculator or
    is omitted. *)
Theorem relax_with_ml_ready_calculator atoms k o s :
  all_calls ase_event s (snd (relax_with_ml atoms (CalcObj k) o s)) /\
  (forall p, relax_with_ml atoms (CalcObj k) (set_model_path o p) s
             = relax_with_ml atoms (CalcObj k) o s) /\
  (forall p, relax_with_ml atoms CalcNone (set_model_path o p) s
             = relax_with_ml atoms CalcNone o s).
Proof.
  split; [apply relax_with_ml_ready_calls | split; intros p; reflexivity].
Qed.

End RelaxStages.

(** ** The phonon procedure, stage by stage *)

Section PhononStages.
Context {L : Libs}.

Lemma bind_assoc_run {A B C} (m : M A) (k : A -> M B) (h : B -> M C) s :
  bind (bind m k) h s = bind m (fun a => bind (k a) h) s.
Proof. unfold bind. destruct (m s) as [[a | e] s1]; reflexivity. Qed.

Lemma bind_ret_run {A B} (a : A) (k : A -> M B) s : bind (ret a) k s = k a s.
Proof. reflexivity. Qed.

Lemma bind_ext_run {A B} (m : M A) (k1 k2 : A -> M B) s :
  (forall a s1, k1 a s1 = k2 a s1) -> bind m k1 s = bind m k2 s.
Proof.
  intros H. unfold bind.
  destruct (m s) as [[a | e] s1]; [apply H | reflexivity].
Qed.

Lemma selector_not_plot ev :
  selector_event ev = true -> negb (plot_event ev) = true.
Proof.
  destruct ev; cbn; try congruence.
  intros H. apply bool_decide_eq_true in H. unfold backend_modules in H.
  repeat (apply elem_of_cons in H; destruct H as [-> | H]);
    [reflexivity .. | ]. inversion H.
Qed.

Lemma selector_not_ase ev :
  selector_event ev = true -> negb (ase_event ev) = true.
Proof. destruct ev; cbn; congruence. Qed.

Lemma ase_not_plot ev : ase_event ev = true -> negb (plot_event ev) = true.
Proof. destruct ev; cbn; congruence. Qed.

(** X10.  With [relax = false], [phonon_with_ml] makes no call into ASE,
    whatever the outcome, and calls the phonon routine on no reference but
    the caller's own.  A call that returns has made the selector's calls
    and then called the phonon routine on the caller's reference with the
    merged dictionary. *)
Theorem phonon_with_ml_without_relax atoms calc plot kn kv np fig kwargs s :
  all_calls (unrelaxed_event atoms) s
    (snd (phonon_with_ml atoms calc false plot kn kv np fig kwargs s)) /\
  (forall s',
     phonon_with_ml atoms calc false plot kn kv np fig kwargs s
     = (Ok tt, s') ->
     exists sel k post,
       trace s' = trace s ++ sel
                  ++ EvCalculatePhonon atoms k (phon_args kwargs) :: post /\
       forallb selector_event sel = true).
Proof.
  split.
  - set (I := all_calls (unrelaxed_event atoms) s).
    assert (forall ev, unrelaxed_event atoms ev = true -> call_stable I ev)
      as Hev.
    { intros ev Hev. apply (all_calls_call _ _ _ Hev). }
    assert (keeps I (phonon_with_ml atoms calc false plot kn kv np fig kwargs)
                  (fun _ => True)) as K.
    { unfold phonon_with_ml.
      eapply keeps_bind with (Q := fun _ => True).
      { destruct calc;
          [apply init_calc_keeps_selector | apply init_calc_keeps_selector
           | apply keeps_ret_any];
          intros ev E; apply Hev; destruct ev; cbn in *; congruence. }
      intros k _.
      eapply keeps_bind with (Q := fun a => a = atoms);
        [apply keeps_ret; reflexivity | intros a ->].
      unfold calculate_phonon, import, plot_phonon.
      eapply keeps_bind with (Q := fun _ => True).
      { eapply keeps_bind; [apply keeps_deref | intros x _].
        apply keeps_ext, Hev. cbn. apply Nat.eqb_refl. }
      intros _ _. destruct plot; repeat keeps_call Hev. }
    apply K, all_calls_refl.
  - intros s' H. unfold phonon_with_ml in H.
    apply bind_ok_inv in H. destruct H as (k & s1 & H1 & H).
    apply bind_ok_inv in H. destruct H as (a & s2 & H2 & H).
    apply bind_ok_inv in H. destruct H as ([] & s3 & H3 & H4).
    inversion H2; subst; clear H2.
    assert (all_calls selector_event s s2) as (sel & T1 & P1).
    { destruct calc as [tag | | c].
      - pose proof (init_calc_touches_selector tag None s) as (_ & _ & A).
        rewrite H1 in A. exact A.
      - pose proof (init_calc_touches_selector "chgnet" None s) as (_ & _ & A).
        rewrite H1 in A. exact A.
      - inversion H1; subst. apply all_calls_refl. }
    unfold calculate_phonon in H3. exec_in H3. inversion H3; subst; clear H3.
    exists sel, k. unfold import, plot_phonon in H4.
    destruct plot; exec_in H4; inversion H4; subst; clear H4; cbn [trace];
      eexists; (split; [ | exact P1]);
      rewrite T1, <- !app_assoc; reflexivity.
Qed.

Lemma phonon_with_ml_no_plot atoms calc relax kn kv np fig kwargs s0 :
  keeps (all_calls (fun ev => negb (plot_event ev)) s0)
        (phonon_with_ml atoms calc relax false kn kv np fig kwargs)
        (fun _ => True).
Proof.
  set (I := all_calls (fun ev => negb (plot_event ev)) s0).
  assert (forall ev, negb (plot_event ev) = true -> call_stable I ev) as Hev.
  { intros ev Hev. apply (all_calls_call _ _ _ Hev). }
  unfold phonon_with_ml.
  eapply keeps_bind with (Q := fun _ => True).
  { destruct calc;
      [apply init_calc_keeps_selector | apply init_calc_keeps_selector
       | apply keeps_ret_any];
      intros ev E; apply Hev, selector_not_plot, E. }
  intros k _.
  eapply keeps_bind with (Q := fun _ => True).
  { destruct relax; [ | apply keeps_ret_any].
    intros s Hs.
    destruct (relax_with_ml_keeps_stages I atoms (CalcObj k) relax_defaults)
      with (s := s) as [K _]; [ | | | exact Hs | split; [exact K | auto]].
    - intros ev E. apply Hev, ase_not_plot, E.
    - apply keeps_ret_any.
    - intros s1 x1 H1. split; [exact H1 | apply all_calls_private]. }
  intros a _. unfold calculate_phonon.
  eapply keeps_bind with (Q := fun _ => True).
  { eapply keeps_bind; [apply keeps_deref | intros x _].
    apply keeps_ext, Hev. reflexivity. }
  intros _ _. apply keeps_ret_any.
Qed.

(** X11.  Plotting is a suffix of the procedure.  With [plot = false] no
    call of the plotting stage is made, whatever the outcome.  With
    [plot = true] the run is the run with [plot = false] followed by the
    plotting stage, so a failure before it means nothing is imported or
    plotted; a returning call ends with the import of the plotting module
    and one plot call with the caller's path labels, vectors, point count
    and figure name. *)
Theorem phonon_with_ml_plot_last atoms calc relax kn kv np fig kwargs s :
  all_calls (fun ev => negb (plot_event ev)) s
    (snd (phonon_with_ml atoms calc relax false kn kv np fig kwargs s)) /\
  phonon_with_ml atoms calc relax true kn kv np fig kwargs s
  = bind (phonon_with_ml atoms calc relax false kn kv np fig kwargs)
         (fun _ => plot_stage kn kv np fig) s /\
  (forall s',
     phonon_with_ml atoms calc relax true kn kv np fig kwargs s
     = (Ok tt, s') ->
     exists evs,
       trace s' = trace s ++ evs ++
         [EvImport "pyDFTutils.phonon.plotphonopy";
          EvPlotPhonon kn kv np fig] /\
       forallb (fun ev => negb (plot_event ev)) evs = true).
Proof.
  assert (all_calls (fun ev => negb (plot_event ev)) s
            (snd (phonon_with_ml atoms calc relax false kn kv np fig
                                 kwargs s))) as A.
  { apply (phonon_with_ml_no_plot atoms calc relax kn kv np fig kwargs s s).
    apply all_calls_refl. }
  assert (phonon_with_ml atoms calc relax true kn kv np fig kwargs s
          = bind (phonon_with_ml atoms calc relax false kn kv np fig kwargs)
                 (fun _ => plot_stage kn kv np fig) s) as B.
  { unfold phonon_with_ml. rewrite bind_assoc_run.
    apply bind_ext_run; intros k s1. rewrite bind_assoc_run.
    apply bind_ext_run; intros a s2. rewrite bind_assoc_run.
    apply bind_ext_run; intros u s3. reflexivity. }
  split; [exact A | ]. split; [exact B | ].
  intros s' E. rewrite B in E. apply bind_ok_inv in E.
  destruct E as (u & s1 & E1 & E2). rewrite E1 in A. cbn [snd] in A.
  destruct A as (evs & T & P). exists evs. split; [ | exact P].
  unfold plot_stage, import, plot_phonon in E2. exec_in E2.
  inversion E2; subst. cbn [trace]. rewrite T, <- !app_assoc. reflexivity.
Qed.

End PhononStages.

(** ** relax_with_matgl *)

Section RelaxMatglFacts.
Context {L : Libs}.

Lemma relax_with_matgl_as_selector atoms o tag path s :
  lower tag = "matgl" ->
  relax_with_matgl atoms o s
  = bind (init_calc tag path)
         (fun c => relax_with_ml atoms (CalcObj c) o) s.
Proof.
  intros H. unfold relax_with_matgl, init_calc. rewrite H.
  cbn [String.eqb Ascii.eqb Bool.eqb].
  rewrite bind_assoc_run. apply bind_ext_run; intros u1 s1.
  rewrite bind_assoc_run. apply bind_ext_run; intros u2 s2.
  rewrite bind_assoc_run. reflexivity.
Qed.

(** X13.  [relax_with_matgl] is [relax_with_ml] on the calculator the
    selector builds for the tag "matgl" (in any letter case, whatever the
    model path), built first: when the selector fails, that failure is the
    result and the store is as it was, no copy having been made.  Whatever
    the outcome, every object that existed before the call is unchanged,
    and the calls are the selector's followed by calls into ASE. *)
Theorem relax_with_matgl_loads_first atoms o s :
  (forall tag path, lower tag = "matgl" ->
     relax_with_matgl atoms o s
     = bind (init_calc tag path)
            (fun c => relax_with_ml atoms (CalcObj c) o) s) /\
  (forall e s1, init_calc "matgl" None s = (Err e, s1) ->
     relax_with_matgl atoms o s = (Err e, s1) /\ heap s1 = heap s) /\
  (forall a y, heap s !! a = Some y ->
     heap (snd (relax_with_matgl atoms o s)) !! a = Some y) /\
  exists evs1 evs2,
    trace (snd (relax_with_matgl atoms o s)) = trace s ++ evs1 ++ evs2 /\
    forallb selector_event evs1 = true /\ forallb ase_event evs2 = true.
Proof.
  pose proof (relax_with_matgl_as_selector atoms o "matgl" None s eq_refl)
    as U.
  pose proof (init_calc_touches_selector "matgl" None s) as (F1 & F2 & F3).
  split; [intros tag path H; apply relax_with_matgl_as_selector, H | ].
  rewrite U, bind_run.
  destruct (init_calc "matgl" None s) as [[k | e] s1]; cbn [snd] in *.
  - split; [intros e' s1' E; discriminate E | ].
    split.
    + intros a y Ha. rewrite <- F1 in Ha.
      apply (relax_with_ml_frame atoms (CalcObj k) o s1 a y Ha).
    + destruct F3 as (evs1 & T1 & P1).
      destruct (relax_with_ml_ready_calls atoms k o s1) as (evs2 & T2 & P2).
      exists evs1, evs2. rewrite T2, T1, <- app_assoc. auto.
  - split; [intros e' s1' E; inversion E; subst; auto | ].
    split; [intros a y Ha; rewrite F1; exact Ha | ].
    destruct F3 as (evs1 & T1 & P1). exists evs1, [].
    rewrite app_nil_r. auto.
Qed.

End RelaxMatglFacts.

(** ** The merged option dictionary *)

Section PhonArgsFacts.
Context {L : Libs}.

Lemma dict_update_union (d kw : gmap string pyval) :
  dict_update d kw = kw ∪ d.
Proof.
  apply map_eq. intros k. rewrite dict_update_lookup, lookup_union.
  destruct (kw !! k), (d !! k); reflexivity.
Qed.

Lemma phon_defaults_dom : dom phon_defaults = list_to_set phon_option_names.
Proof.
  unfold phon_defaults, phon_option_names.
  cbn [list_to_map foldr uncurry fst snd list_to_set].
  rewrite !dom_insert_L, dom_empty_L. reflexivity.
Qed.

(** X9.  The merge is a left-biased union of the overrides over the
    defaults.  Without overrides the dictionary is the defaults; its keys
    are the fifteen default names together with the caller's; a key that
    is not a default is not rejected but forwarded with the caller's
    value; and merging a second set of overrides on top is the merge of
    the combined overrides, the later ones winning. *)
Theorem phon_args_union kwargs :
  phon_args kwargs = kwargs ∪ phon_defaults /\
  phon_args ∅ = phon_defaults /\
  dom (phon_args kwargs) = dom kwargs ∪ list_to_set phon_option_names /\
  (forall k, k ∉ phon_option_names ->
             phon_args kwargs !! k = kwargs !! k) /\
  (forall later,
     dict_update (phon_args kwargs) later = phon_args (later ∪ kwargs)).
Proof.
  unfold phon_args. rewrite !dict_update_union.
  split; [reflexivity | ].
  split; [apply (left_id_L ∅ (∪)) | ].
  split; [rewrite dom_union_L, phon_defaults_dom; reflexivity | ].
  split.
  - intros k Hk. rewrite lookup_union.
    assert (phon_defaults !! k = None) as ->.
    { apply not_elem_of_dom. rewrite phon_defaults_dom.
      rewrite elem_of_list_to_set. exact Hk. }
    destruct (kwargs !! k); reflexivity.
  - intros later. rewrite !dict_update_union.
    apply (assoc_L (∪)).
Qed.

End PhonArgsFacts.

(** X9 at the test double: an option the routine does not know. *)
Lemma phon_args_union_witness :
  phon_args (L := Mock.libs) {["verbose" := PyBool true]} !! "verbose"
  = ({["verbose" := PyBool true]} : gmap string pyval) !! "verbose".
Proof.
  apply (proj1 (proj2 (proj2 (proj2
           (phon_args_union (L := Mock.libs) {["verbose" := PyBool true]}))))).
  unfold phon_option_names. rewrite !not_elem_of_cons.
  repeat split; try discriminate. apply not_elem_of_nil.
Defined.

(** ** Reusing a predictor *)

Section PredictorReuse.
Context {L : Libs}.

(** One prediction on a predictor: store and files are untouched, nothing
    is loaded, and a call of the model is on the predictor's handle. *)
Lemma predict_gap_method_calls (self : MatGLGapPredictor) atoms xc s :
  heap (snd (MatGLGapPredictor_predict_gap self atoms xc s)) = heap s /\
  files (snd (MatGLGapPredictor_predict_gap self atoms xc s)) = files s /\
  exists evs,
    trace (snd (MatGLGapPredictor_predict_gap self atoms xc s))
    = trace s ++ evs /\
    forallb (fun ev => negb (is_load ev)) evs = true /\
    forall m st f, In (EvPredictStructure m st f) evs -> m = _model self.
Proof.
  unfold MatGLGapPredictor_predict_gap, ase_to_pymatgen, import.
  repeat run_step; cbn [snd heap files trace].
  all: (split; [reflexivity | ]); (split; [reflexivity | ]).
  all: rewrite <- ?app_assoc; cbn [app].
  all: try (exists []; rewrite app_nil_r; split; [reflexivity | ];
            split; [reflexivity | intros m st f []]).
  all: same_trace; (split; [reflexivity | ]).
  all: intros m st f I; in_cases I; inversion I; reflexivity.
Qed.

(** X8.  A prediction on an existing predictor loads nothing, whatever
    its outcome, and leaves store and files alone.  So constructing one
    predictor and predicting twice with it loads the band-gap model once,
    and both predictions call the same model handle. *)
Theorem predictor_reuses_model (self : MatGLGapPredictor) a1 xc1 a2 xc2 s :
  (heap (snd (MatGLGapPredictor_predict_gap self a1 xc1 s)) = heap s /\
   files (snd (MatGLGapPredictor_predict_gap self a1 xc1 s)) = files s /\
   loads (trace (snd (MatGLGapPredictor_predict_gap self a1 xc1 s)))
   = loads (trace s)) /\
  (forall g s',
     bind MatGLGapPredictor_init
          (fun p =>
             bind (MatGLGapPredictor_predict_gap p a1 xc1)
                  (fun g1 =>
                     bind (MatGLGapPredictor_predict_gap p a2 xc2)
                          (fun g2 => ret (g1, g2)))) s
     = (Ok g, s') ->
     loads (trace s') = (loads (trace s) + 1)%nat /\
     exists m evs,
       trace s' = trace s ++ evs /\
       forall m' st f, In (EvPredictStructure m' st f) evs -> m' = m).
Proof.
  split.
  - destruct (predict_gap_method_calls self a1 xc1 s)
      as (H1 & H2 & evs & T & N & _).
    split; [exact H1 | ]. split; [exact H2 | ].
    rewrite T, loads_app, (loads_none _ N). lia.
  - intros g s' E.
    apply bind_ok_inv in E. destruct E as (p & s1 & E0 & E).
    apply bind_ok_inv in E. destruct E as (g1 & s2 & E1 & E).
    apply bind_ok_inv in E. destruct E as (g2 & s3 & E2 & E).
    inversion E; subst g s3; clear E.
    unfold MatGLGapPredictor_init, import in E0. exec_in E0.
    inversion E0; subst p s1; clear E0.
    destruct (predict_gap_method_calls (mkPredictor a0) a1 xc1
                (mkState w0 (heap s) (files s)
                   ((trace s ++ [EvImport "matgl"])
                    ++ [EvLoadModel "MEGNet-MP-2019.4.1-BandGap-mfi"])))
      as (_ & _ & evs1 & T1 & N1 & M1).
    rewrite E1 in T1. cbn [snd trace] in T1.
    destruct (predict_gap_method_calls (mkPredictor a0) a2 xc2 s2)
      as (_ & _ & evs2 & T2 & N2 & M2).
    rewrite E2 in T2. cbn [snd] in T2.
    split.
    + rewrite T2, T1, !loads_app, (loads_none _ N1), (loads_none _ N2).
      cbn. lia.
    + exists a0. eexists. rewrite T2, T1, <- !app_assoc.
      split; [reflexivity | ].
      intros m' st f I. cbn [app] in I. destruct I as [I | [I | I]];
        [discriminate I | discriminate I | ].
      apply in_app_or in I. destruct I as [I | I]; [apply (M1 _ _ _ I) | ].
      apply (M2 _ _ _ I).
Qed.

End PredictorReuse.

(** ** A returning relaxation, call by call *)

Section RelaxWalk.
Context {L : Libs}.

Lemma same_identity_refl y : same_identity y y.
Proof. repeat split. Qed.

Lemma same_identity_trans x y z :
  same_identity x y -> same_identity y z -> same_identity x z.
Proof.
  intros (A1 & A2 & A3) (B1 & B2 & B3). unfold same_identity.
  rewrite B1, B2, B3. auto.
Qed.

Lemma iterations_identity t x fm w :
  Forall (same_identity x) (fst (fst (iterations t x fm w))).
Proof.
  destruct t; cbn; apply List.Forall_forall; intros y Hy;
    apply in_map_iff in Hy; destruct Hy as (d & <- & _);
    unfold same_identity; cbn; auto.
Qed.

Lemma run_identity opt fm s u s' y :
  run opt fm s = (Ok u, s') ->
  heap s !! target_loc (opt_target opt) = Some y ->
  exists z, heap s' !! target_loc (opt_target opt) = Some z /\
            same_identity y z.
Proof.
  unfold run. intros H Hy. rewrite Hy in H.
  set (r := iterations (opt_target opt) y fm (world s)) in *.
  exists (List.last (fst (fst r)) y). split.
  - destruct (snd (fst r)); [discriminate H | ]. inversion H; subst s'.
    apply fold_iterate_heap. exact Hy.
  - apply (last_Forall (same_identity y));
      [apply iterations_identity | apply same_identity_refl].
Qed.

Lemma cell_passes_identity c cf kw fm s opt s' y :
  (ecf <- UnitCellFilter c cf kw ;;
   opt <- FIRE ecf ;;
   run opt (mul10 fm) ;;;
   opt <- FIRE ecf ;;
   run opt fm ;;;
   ret opt) s = (Ok opt, s') ->
  heap s !! c = Some y ->
  exists z, heap s' !! c = Some z /\ same_identity y z.
Proof.
  intros H Hy. unfold UnitCellFilter, FIRE in H. exec_in H.
  match type of H with
  | context [run ?o ?f ?st] =>
      destruct (run o f st) as [[[] | e] s1] eqn:R1; [ | discriminate H]
  end.
  apply run_identity with (y := y) in R1; [ | exact Hy].
  destruct R1 as (z1 & Hz1 & I1). cbn [target_loc opt_target] in Hz1.
  exec_in H.
  match type of H with
  | context [run ?o ?f ?st] =>
      destruct (run o f st) as [[[] | e] s2] eqn:R2; [ | discriminate H]
  end.
  apply run_identity with (y := z1) in R2; [ | exact Hz1].
  destruct R2 as (z2 & Hz2 & I2). cbn [target_loc opt_target] in Hz2.
  exec_in H. inversion H; subst. exists z2.
  split; [exact Hz2 | apply (same_identity_trans _ _ _ I1 I2)].
Qed.

Lemma recorded_pass_identity c tgt path fm s c' s' y :
  (traj <- Trajectory path c ;;
   let opt := attach (mkOpt tgt []) traj in
   run opt fm ;;;
   ret c) s = (Ok c', s') ->
  target_loc tgt = c ->
  heap s !! c = Some y ->
  exists z, heap s' !! c = Some z /\ same_identity y z.
Proof.
  intros H Ht Hy. unfold Trajectory in H. exec_in H.
  match type of H with
  | context [run ?o ?f ?st] =>
      destruct (run o f st) as [[[] | e] s1] eqn:R1; [ | discriminate H]
  end.
  apply run_identity with (y := y) in R1.
  - destruct R1 as (z & Hz & I1).
    cbn [attach target_loc opt_target] in Hz. rewrite Ht in Hz.
    exec_in H. inversion H; subst. eauto.
  - cbn [attach opt_target heap with_files]. rewrite Ht. exact Hy.
Qed.

(** The copy at [c] when the optimizer is built, and the calls so far. *)
Lemma relax_setup_walk c carg o s0 x s1 u2 s2 k s3 u4 s4 u5 s5 :
  heap s1 !! c = Some (copy_val x) ->
  trace s1 = trace s0 ->
  match rattle o with
  | Some r => rattle_atoms c r
  | None => ret tt
  end s1 = (Ok u2, s2) ->
  resolve carg (model_path o) s2 = (Ok k, s3) ->
  set_calculator c k s3 = (Ok u4, s4) ->
  (if sym o
   then bind (FixSymmetry c) (fun kc => set_constraint c kc)
   else ret tt) s4 = (Ok u5, s5) ->
  exists sel y5,
    forallb selector_event sel = true /\
    (forall k0, carg = CalcObj k0 -> k = k0 /\ sel = []) /\
    heap s5 !! c = Some y5 /\
    calc y5 = Some k /\ symbols y5 = symbols x /\
    (sym o = false -> constraints y5 = constraints x) /\
    trace s5 = trace s0 ++ rattle_calls c o ++ sel ++ sym_calls c o.
Proof.
  intros Hy1 Ht1 H2 H3 H4 H5. unfold rattle_calls, sym_calls.
  assert (exists y2, heap s2 !! c = Some y2 /\
                     same_identity (copy_val x) y2 /\
                     trace s2 = trace s0 ++
                       match rattle o with
                       | Some r => [EvRattle c r]
                       | None => []
                       end) as (y2 & Hy2 & I2 & Ht2).
  { destruct (rattle o) as [r | ].
    - apply rattle_ok_inv in H2. destruct H2 as (y & p & E1 & E2 & _ & E4).
      rewrite Hy1 in E1. inversion E1; subst y.
      exists (set_positions p (copy_val x)).
      rewrite E2, E4, Ht1, lookup_insert_eq.
      split; [reflexivity | ]. split; [ | reflexivity].
      unfold same_identity. cbn. auto.
    - inversion H2; subst. exists (copy_val x). rewrite app_nil_r.
      split; [exact Hy1 | ]. split; [apply same_identity_refl | exact Ht1]. }
  assert (exists sel, forallb selector_event sel = true /\
                      (forall k0, carg = CalcObj k0 -> k = k0 /\ sel = []) /\
                      heap s3 = heap s2 /\ trace s3 = trace s2 ++ sel)
    as (sel & Psel & Hobj & Hh3 & Ht3).
  { destruct carg as [tag | | k0]; cbn [resolve] in H3.
    - destruct (init_calc_touches_selector tag (model_path o) s2)
        as (F1 & _ & sel & F3 & F4).
      rewrite H3 in F1, F3. exists sel. split; [exact F4 | ].
      split; [intros k0 E; discriminate E | auto].
    - destruct (init_calc_touches_selector "chgnet" None s2)
        as (F1 & _ & sel & F3 & F4).
      rewrite H3 in F1, F3. exists sel. split; [exact F4 | ].
      split; [intros k0 E; discriminate E | auto].
    - inversion H3; subst. exists []. rewrite app_nil_r.
      split; [reflexivity | ].
      split; [intros k1 E; inversion E; auto | auto]. }
  apply set_calculator_ok_inv in H4. destruct H4 as (y & E1 & E2 & _ & E4).
  rewrite Hh3, Hy2 in E1. inversion E1; subst y.
  assert (heap s4 !! c = Some (set_calc k y2)) as Hy4.
  { rewrite E2. apply lookup_insert_eq. }
  destruct I2 as (_ & I2s & I2c). cbn in I2s, I2c.
  exists sel. destruct (sym o).
  - apply sym_ok_inv in H5.
    destruct H5 as (y & kc & p & ce & w & w' & F1 & _ & F3 & _ & F5).
    rewrite Hy4 in F1. inversion F1; subst y.
    eexists. split; [exact Psel | ]. split; [exact Hobj | ].
    split; [exact F3 | ]. cbn.
    split; [reflexivity | ]. split; [exact I2s | ].
    split; [discriminate | ].
    rewrite F5, E4, Ht3, Ht2, <- !app_assoc. reflexivity.
  - inversion H5; subst. exists (set_calc k y2).
    split; [exact Psel | ]. split; [exact Hobj | ].
    split; [exact Hy4 | ]. cbn.
    split; [reflexivity | ]. split; [exact I2s | ].
    split; [intros _; exact I2c | ].
    rewrite E4, Ht3, Ht2, app_nil_r, <- !app_assoc. reflexivity.
Qed.

Lemma relax_with_ml_ok_walk atoms carg o s c s' :
  relax_with_ml atoms carg o s = (Ok c, s') ->
  exists x k sel passes z,
    heap s !! atoms = Some x /\
    forallb selector_event sel = true /\
    (forall k0, carg = CalcObj k0 -> k = k0 /\ sel = []) /\
    length passes = (if relax_cell o then 3%nat else 1%nat) /\
    trace s' = trace s ++ rattle_calls c o ++ sel ++ sym_calls c o
               ++ schedule_calls c o passes /\
    heap s' !! c = Some z /\
    calc z = Some k /\ symbols z = symbols x /\
    (sym o = false -> constraints z = constraints x).
Proof.
  intros H. unfold relax_with_ml in H.
  apply bind_ok_inv in H. destruct H as (c0 & s1 & Hcopy & H).
  rewrite copy_run in Hcopy.
  destruct (heap s !! atoms) as [x | ] eqn:Hx; [ | discriminate Hcopy].
  inversion Hcopy; subst c0 s1; clear Hcopy.
  set (c1 := fresh (dom (heap s))) in *.
  apply bind_ok_inv in H. destruct H as (u2 & s2 & H2 & H).
  apply bind_ok_inv in H. destruct H as (k & s3 & H3 & H).
  apply bind_ok_inv in H. destruct H as (u4 & s4 & H4 & H).
  apply bind_ok_inv in H. destruct H as (u5 & s5 & H5 & H).
  apply bind_ok_inv in H. destruct H as (opt & s6 & H6 & H).
  assert (c = c1) as ->.
  { apply bind_ok_inv in H. destruct H as (tr & s7 & _ & H).
    apply bind_ok_inv in H. destruct H as (u8 & s8 & _ & H).
    inversion H. reflexivity. }
  destruct (relax_setup_walk c1 carg o s x
              (with_heap (<[c1 := copy_val x]> (heap s)) s)
              u2 s2 k s3 u4 s4 u5 s5)
    as (sel & y5 & Psel & Hobj & Hy5 & Hk5 & Hs5 & Hc5 & Ht5);
    [cbn; apply lookup_insert_eq | reflexivity | exact H2 | | exact H4
     | exact H5 | ].
  { destruct carg; exact H3. }
  exists x, k, sel.
  unfold schedule_calls. destruct (relax_cell o).
  - destruct (cell_passes_ok_inv _ _ _ _ _ _ _ _ H6 Hy5)
      as (st1 & st2 & -> & _ & _ & Ht6).
    destruct (cell_passes_identity _ _ _ _ _ _ _ _ H6 Hy5)
      as (z6 & Hz6 & I6).
    destruct (recorded_pass_ok_inv _ _ _ _ _ _ _ _ H eq_refl Hz6)
      as (st3 & _ & _ & _ & Ht7 & _).
    destruct (recorded_pass_identity _ _ _ _ _ _ _ _ H eq_refl Hz6)
      as (z & Hz & I7).
    destruct (same_identity_trans _ _ _ I6 I7) as (J1 & J2 & J3).
    exists [st1; st2; st3], z.
    split; [reflexivity | ]. split; [exact Psel | ]. split; [exact Hobj | ].
    split; [reflexivity | ]. split.
    { rewrite Ht7, Ht6, Ht5, <- !app_assoc. reflexivity. }
    split; [exact Hz | ]. rewrite J1, J2, J3. auto.
  - unfold FIRE in H6. exec_in H6. inversion H6; subst opt s6; clear H6.
    destruct (recorded_pass_ok_inv c1 (OnAtoms c1) _ _ _ _ _ y5 H eq_refl)
      as (st & _ & _ & _ & Ht7 & _); [exact Hy5 | ].
    destruct (recorded_pass_identity c1 (OnAtoms c1) _ _ _ _ _ y5 H eq_refl)
      as (z & Hz & (J1 & J2 & J3)); [exact Hy5 | ].
    exists [st], z.
    split; [reflexivity | ]. split; [exact Psel | ]. split; [exact Hobj | ].
    split; [reflexivity | ]. split.
    { cbn [trace] in Ht7. rewrite Ht7, Ht5, <- !app_assoc. reflexivity. }
    split; [exact Hz | ]. rewrite J1, J2, J3. auto.
Qed.

(** X7.  The calls of a returning [relax_with_ml], in order: the
    perturbation of the copy if [rattle] is given; the selector's calls,
    none for a ready calculator; the [FixSymmetry] constructor if [sym];
    then the schedule: with [relax_cell] the cell filter and three passes
    (to [fmax * 10], to [fmax], and the recorded one to [fmax]), without
    it one recorded pass on the copy itself. *)
Theorem relax_with_ml_call_sequence atoms carg o s c s' :
  relax_with_ml atoms carg o s = (Ok c, s') ->
  exists sel passes,
    trace s' = trace s ++ rattle_calls c o ++ sel ++ sym_calls c o
               ++ schedule_calls c o passes /\
    forallb selector_event sel = true /\
    (forall k, carg = CalcObj k -> sel = []) /\
    length passes = (if relax_cell o then 3%nat else 1%nat).
Proof.
  intros H. apply relax_with_ml_ok_walk in H.
  destruct H as (x & k & sel & passes & z & _ & P & O & N & T & _).
  exists sel, passes. split; [exact T | ]. split; [exact P | ].
  split; [intros k0 E; apply (O k0 E) | exact N].
Qed.


End RelaxWalk.

(** ** The further properties at the test double *)

(** X4 at the test double. *)
Lemma relax_with_ml_unknown_tag_witness :
  relax_with_ml (L := Mock.libs) 0%nat (CalcTag "lammps") relax_defaults
                Mock.s0
  = (Err (ValueError EmptyString),
     with_heap (<[fresh (dom (heap Mock.s0)) := copy_val Mock.atoms0]>
                  (heap Mock.s0)) Mock.s0).
Proof.
  apply (relax_with_ml_unknown_tag (L := Mock.libs) 0%nat "lammps"
           relax_defaults Mock.s0).
  - cbn. intuition discriminate.
  - reflexivity.
  - reflexivity.
Defined.

(** X5 at the test double. *)
Lemma phonon_with_ml_unknown_tag_witness :
  phonon_with_ml (L := Mock.libs) 0%nat (CalcTag "lammps") true true
                 PyNone PyNone (PyInt 100) "phonon.pdf" ∅ Mock.s0
  = (Err (ValueError EmptyString), Mock.s0).
Proof.
  apply (phonon_with_ml_unknown_tag (L := Mock.libs)).
  cbn. intuition discriminate.
Defined.

(** X7 at the test double. *)
Lemma relax_with_ml_call_sequence_witness :
  exists sel passes,
    trace (snd MockMore.rattled_run)
    = trace Mock.s0 ++ rattle_calls 1%nat MockMore.rattled_opts ++ sel
      ++ sym_calls 1%nat MockMore.rattled_opts
      ++ schedule_calls 1%nat MockMore.rattled_opts passes /\
    forallb (selector_event (L := Mock.libs)) sel = true /\
    (forall k, CalcTag (L := Mock.libs) "ChgNet" = CalcObj k -> sel = []) /\
    length passes = 1%nat.
Proof.
  apply (relax_with_ml_call_sequence (L := Mock.libs) 0%nat
           (CalcTag "ChgNet") MockMore.rattled_opts Mock.s0 1%nat
           (snd MockMore.rattled_run)).
  vm_compute. reflexivity.
Defined.


(** X8 at the test double: one predictor, two predictions, one load. *)
Lemma predictor_reuses_model_witness :
  loads (trace (snd
    (bind (MatGLGapPredictor_init (L := Mock.libs))
          (fun p =>
             bind (MatGLGapPredictor_predict_gap p 0%nat "PBE")
                  (fun g1 =>
                     bind (MatGLGapPredictor_predict_gap p 0%nat "HSE")
                          (fun g2 => ret (g1, g2)))) Mock.s0)))
  = (loads (trace Mock.s0) + 1)%nat.
Proof.
  apply (proj2 (predictor_reuses_model (L := Mock.libs)
                  (mkPredictor (L := Mock.libs) "m") 0%nat "PBE" 0%nat "HSE"
                  Mock.s0)
           (0.5%float, 3.5%float)).
  vm_compute. reflexivity.
Defined.

(** X11 at the test double. *)
Lemma phonon_with_ml_plot_last_witness :
  exists evs,
    trace (snd MockMore.phonon_run)
    = trace Mock.s0 ++ evs ++
      [EvImport "pyDFTutils.phonon.plotphonopy";
       EvPlotPhonon PyNone PyNone (PyInt 100) "phonon.pdf"] /\
    forallb (fun ev => negb (plot_event (L := Mock.libs) ev)) evs = true.
Proof.
  apply (proj2 (proj2 (phonon_with_ml_plot_last (L := Mock.libs) 0%nat
                         CalcNone true PyNone PyNone (PyInt 100)
                         "phonon.pdf" ∅ Mock.s0))).
  vm_compute. reflexivity.
Defined.

(** X10 at the test double. *)
Lemma phonon_with_ml_without_relax_witness :
  exists sel k post,
    trace (snd (phonon_with_ml (L := Mock.libs) 0%nat CalcNone false true
                  PyNone PyNone (PyInt 100) "phonon.pdf" ∅ Mock.s0))
    = trace Mock.s0 ++ sel
      ++ EvCalculatePhonon 0%nat k (phon_args (L := Mock.libs) ∅) :: post /\
    forallb (selector_event (L := Mock.libs)) sel = true.
Proof.
  apply (proj2 (phonon_with_ml_without_relax (L := Mock.libs) 0%nat CalcNone
                  true PyNone PyNone (PyInt 100) "phonon.pdf" ∅ Mock.s0)).
  vm_compute. reflexivity.
Defined.

(** X13 at the test double. *)
Lemma relax_with_matgl_loads_first_witness :
  relax_with_matgl (L := Mock.libs) 0%nat relax_defaults Mock.s0
  = bind (init_calc "MATGL" (Some "ignored"))
         (fun c => relax_with_ml 0%nat (CalcObj c) relax_defaults) Mock.s0.
Proof.
  apply (proj1 (relax_with_matgl_loads_first (L := Mock.libs) 0%nat
                  relax_defaults Mock.s0)).
  reflexivity.
Defined.
